(** * pv scene graph: a shallow embedding of [src/scene.js]

    The development follows the source file top to bottom:
    - [Range]: the scalar interval accumulator;
    - [IdPool]: [ContinuousIdRange] and [UniqueObjectIdPool], with the
      range objects kept in a store so that the free list and the callers
      share them by reference, as the JavaScript does;
    - [MeshGeom]: the vertex-array partitioner ([vertArrayWithSpaceFor]);
    - [BaseGeom]: drawing, bounding and central-atom iteration, with and
      without symmetry generators.

    JavaScript numbers that carry ids, counts and capacities are integers
    and are modelled in [Z]; the numbers a [Range] holds and the size
    given to [smallestPowerOfTwo] are any doubles and are modelled by
    primitive floats; [null] is modelled by [None]. *)

From stdpp Require Import base option list gmap strings.
From Stdlib Require Import ZArith Lia.
From Stdlib Require Floats.

Local Open Scope Z_scope.

(** JavaScript's ToNumber on a value that is either [null] or a number:
    [null] counts as [0] in [<], [>] and [-]. *)
Definition toNumber (v : option Z) : Z := default 0 v.

(** ** Range (scene.js, lines 25-70)

    The bounds are JavaScript numbers: any double, NaN and the
    infinities included. [null], which the constructor stores when it is
    given no bounds, is [None]. *)
Module Range.
Import Floats.PrimFloat.

Record t := mk { _empty : bool; _min : option float; _max : option float }.

(** [new Range()]: both arguments are [undefined]. *)
Definition new : t := mk true None None.

(** [new Range(min, max)] with both arguments given. *)
Definition make (min max : float) : t := mk false (Some min) (Some max).

(** JavaScript's ToNumber on a bound: [null] counts as [+0] in [<] and
    [>]. *)
Definition toNumber (v : option float) : float := default 0%float v.

Definition min (r : t) : option float := _min r.
Definition max (r : t) : option float := _max r.
Definition empty (r : t) : bool := _empty r.

(** [update]; [val > this._max] is [this._max < val], the same comparison
    of doubles with its operands exchanged. *)
Definition update (val : float) (r : t) : t :=
  if negb (_empty r) then
    if (val <? toNumber (_min r))%float then mk (_empty r) (Some val) (_max r)
    else if (toNumber (_max r) <? val)%float
         then mk (_empty r) (_min r) (Some val)
    else r
  else mk false (Some val) (Some val).

(** A sequence of [update] calls, first value first. *)
Definition updates (vs : list float) (r : t) : t :=
  foldl (fun acc v => update v acc) r vs.

(** Values none of which is NaN. *)
Definition numbers (vs : list float) : Prop :=
  Forall (fun x => is_nan x = false) vs.

(** What a non-empty range holds after at least one update from [new]. *)
Definition spans (r : t) (lo hi : float) : Prop :=
  _empty r = false /\ _min r = Some lo /\ _max r = Some hi.

(** The invariant of the accumulator once it has seen the values [seen]:
    both ends are values it has seen and they bound every such value. *)
Definition covers (r : t) (seen : list float) : Prop :=
  exists lo hi, spans r lo hi /\ lo ∈ seen /\ hi ∈ seen /\
                Forall (fun x => (lo <=? x)%float = true /\
                                 (x <=? hi)%float = true) seen.

(** Two bounds that are both [null] or equal as numbers ([==]; the two
    zeros are equal this way). *)
Definition numEq (a b : option float) : Prop :=
  match a, b with
  | Some x, Some y => (x =? y)%float = true
  | None, None => True
  | _, _ => False
  end.

(** Two ranges with the same flag and bounds that are equal as numbers. *)
Definition sameRange (r r' : t) : Prop :=
  _empty r = _empty r' /\ numEq (_min r) (_min r') /\ numEq (_max r) (_max r').

End Range.

(** ** ContinuousIdRange and UniqueObjectIdPool (scene.js, lines 792-859)

    A [ContinuousIdRange] is a mutable object that is shared between the
    geometry holding it and, once recycled, the pool's free list. The
    range objects therefore live in a store ([ranges]) and are named by
    their position in it ([ref]); the free list holds references. Every
    range of the store belongs to the one pool of the [World] (its [_pool]
    field). An operation answers [None] only when it is handed a reference
    outside the store, which JavaScript cannot produce. *)
Module IdPool.

(** A reference to a range object: its position in the store. *)
Abbreviation ref := nat.

Section WithObj.
Context {Obj : Type}.

Record ContinuousIdRange := mkRange { _start : Z; _next : Z; _end : Z }.

(** [ContinuousIdRange.prototype.length] *)
Definition rangeLength (rg : ContinuousIdRange) : Z := _end rg - _start rg.

Record UniqueObjectIdPool := mkPool {
  _objects : gmap Z Obj;
  _unusedRangeStart : Z;
  _free : list ref
}.

Record World := mkWorld {
  pool : UniqueObjectIdPool;
  ranges : list ContinuousIdRange;
  console : list string
}.

(** [new UniqueObjectIdPool()] in a world with no range object yet. *)
Definition newPool : World := mkWorld (mkPool ∅ 0 []) [] [].

(** The scan of [getContinuousRange] over the lengths of the free ranges:
    [i] is the loop index, [bestIndex] starts at [-1] and [bestLength] at
    [null]. *)
Fixpoint bestFit (num : Z) (lens : list Z) (i : Z)
    (bestIndex : Z) (bestLength : option Z) : Z * option Z :=
  match lens with
  | [] => (bestIndex, bestLength)
  | length :: rest =>
      if (length >=? num) &&
         match bestLength with None => true | Some b => length <? b end
      then bestFit num rest (i + 1) i (Some length)
      else bestFit num rest (i + 1) bestIndex bestLength
  end.

(** The lengths of the ranges on the free list, in list order. *)
Definition freeLengths (w : World) : option (list Z) :=
  mapM (fun r => rangeLength <$> ranges w !! r) (_free (pool w)).

Definition getContinuousRange (num : Z) (w : World)
    : option (option ref * World) :=
  lens ← freeLengths w;
  let bestIndex := (bestFit num lens 0 (-1) None).1 in
  if negb (bestIndex =? -1) then
    result ← _free (pool w) !! Z.to_nat bestIndex;
    Some (Some result,
          mkWorld (mkPool (_objects (pool w)) (_unusedRangeStart (pool w))
                          (delete (Z.to_nat bestIndex) (_free (pool w))))
                  (ranges w) (console w))
  else
    let start := _unusedRangeStart (pool w) in
    let end_ := start + num in
    if end_ >? 65536 then
      Some (None,
            mkWorld (pool w) (ranges w)
                    (console w ++ ["not enough free object ids."%string]))
    else
      Some (Some (length (ranges w)),
            mkWorld (mkPool (_objects (pool w)) end_ (_free (pool w)))
                    (ranges w ++ [mkRange start start end_]) (console w)).

(** [ContinuousIdRange.prototype.nextId], called on the range [r]. *)
Definition nextId (r : ref) (obj : Obj) (w : World) : option (Z * World) :=
  rg ← ranges w !! r;
  let id := _next rg in
  Some (id,
        mkWorld (mkPool (<[id := obj]> (_objects (pool w)))
                        (_unusedRangeStart (pool w)) (_free (pool w)))
                (<[r := mkRange (_start rg) (id + 1) (_end rg)]> (ranges w))
                (console w)).

(** [UniqueObjectIdPool.prototype.recycle]; [ContinuousIdRange.recycle]
    only forwards to it. The loop deletes the ids [_start .. _next - 1]. *)
Definition recycle (r : ref) (w : World) : option World :=
  rg ← ranges w !! r;
  let objects := foldl (fun m i => delete i m) (_objects (pool w))
                       (seqZ (_start rg) (_next rg - _start rg)) in
  Some (mkWorld (mkPool objects (_unusedRangeStart (pool w))
                        (_free (pool w) ++ [r]))
                (<[r := mkRange (_start rg) (_start rg) (_end rg)]> (ranges w))
                (console w)).

(** [objectForId]: a property that is not there reads as [undefined]. *)
Definition objectForId (id : Z) (w : World) : option Obj :=
  _objects (pool w) !! id.

(** [n] calls of [nextId] on the same range, one per object of [objs];
    the ids come back in call order. *)
Fixpoint nextIds (r : ref) (objs : list Obj) (w : World)
    : option (list Z * World) :=
  match objs with
  | [] => Some ([], w)
  | obj :: rest =>
      '(id, w1) ← nextId r obj w;
      '(ids, w2) ← nextIds r rest w1;
      Some (id :: ids, w2)
  end.

(** Client programs: any sequence of calls on the pool and its ranges. *)
Inductive call :=
  | GetContinuousRange (num : Z)
  | NextId (r : ref) (obj : Obj)
  | Recycle (r : ref).

(** The ids a range has handed out since it was last recycled, kept next
    to the world as bookkeeping for the statements (the code has no such
    table): [(r, id)] is recorded when [r.nextId] returns [id], and every
    record of [r] is dropped when [r] is recycled. *)
Definition Held := list (ref * Z).

Definition step (c : call) (s : World * Held) : option (World * Held) :=
  match c with
  | GetContinuousRange num =>
      '(_, w) ← getContinuousRange num s.1; Some (w, s.2)
  | NextId r obj =>
      '(id, w) ← nextId r obj s.1; Some (w, (r, id) :: s.2)
  | Recycle r =>
      w ← recycle r s.1;
      Some (w, filter (fun p => negb (Nat.eqb p.1 r)) s.2)
  end.

Fixpoint run (cs : list call) (s : World * Held) : option (World * Held) :=
  match cs with
  | [] => Some s
  | c :: rest => s1 ← step c s; run rest s1
  end.

(** The pool's free list after correct use: every range on it is in the
    store and has its cursor back at [_start] ([recycle] puts it there). *)
Definition freeReset (w : World) : Prop :=
  Forall (fun r => exists rg, ranges w !! r = Some rg /\ _next rg = _start rg)
         (_free (pool w)).

(** What [bestIndex] and [bestLength] hold once the scan has passed the
    lengths [seen]: nothing fits so far, or the index of the first
    occurrence of the least length that fits. *)
Definition bestSoFar (num : Z) (seen : list Z) (bestIndex : Z)
    (bestLength : option Z) : Prop :=
  (bestIndex = -1 /\ bestLength = None /\ Forall (fun L => L < num) seen) \/
  (exists (k : nat) L,
     bestIndex = Z.of_nat k /\ bestLength = Some L /\
     seen !! k = Some L /\ num <= L /\
     forall (j : nat) L', seen !! j = Some L' -> num <= L' ->
                          L <= L' /\ (L' = L -> (k <= j)%nat)).

(** The bookkeeping of [step] agrees with the store and the table: a
    cursor never lies before [_start], an id recorded for a range lies
    between that range's [_start] and its cursor, and every id the table
    maps is recorded for some range. *)
Definition tracked (s : World * Held) : Prop :=
  (forall r rg, ranges s.1 !! r = Some rg -> _start rg <= _next rg) /\
  (forall r id, (r, id) ∈ s.2 ->
     exists rg, ranges s.1 !! r = Some rg /\ _start rg <= id < _next rg) /\
  (forall id obj, objectForId id s.1 = Some obj -> exists r, (r, id) ∈ s.2).

(** The free list holds references of the store only, and a call names a
    range of the store. *)
Definition freeInStore (w : World) : Prop :=
  Forall (fun r => (r < length (ranges w))%nat) (_free (pool w)).

Definition callInStore (c : call) (w : World) : Prop :=
  match c with
  | GetContinuousRange _ => True
  | NextId r _ | Recycle r => (r < length (ranges w))%nat
  end.

(** The free list [5, 10, 3] of the spec's example: three ranges carved
    from a new pool and recycled in the order they were carved. *)
Definition exampleFree : World :=
  mkWorld (mkPool ∅ 18 [0; 1; 2]%nat)
          [mkRange 0 0 5; mkRange 5 5 15; mkRange 15 15 18] [].

(** The loop of [BaseGeom.prototype.destroy] (scene.js, lines 217-222)
    over [this._idRanges]: each range is recycled, first to last. The
    list itself is left as it is. *)
Fixpoint recycleAll (idRanges : list ref) (w : World) : option World :=
  match idRanges with
  | [] => Some w
  | r :: rest => w1 ← recycle r w; recycleAll rest w1
  end.

(** The store as [getContinuousRange] builds it from the unused tail: the
    ranges follow one another from [a] to [b] without a gap, and each
    cursor lies between its range's ends. *)
Fixpoint tiled (a : Z) (l : list ContinuousIdRange) (b : Z) : Prop :=
  match l with
  | [] => a = b
  | rg :: rest =>
      _start rg = a /\ _start rg <= _next rg <= _end rg /\
      tiled (_end rg) rest b
  end.

(** Use within the sizes asked for: a request is not negative, and
    [nextId] is called on a range of the store whose cursor has not
    reached [_end]. *)
Definition permitted (c : call) (w : World) : Prop :=
  match c with
  | GetContinuousRange num => 0 <= num
  | NextId r _ => exists rg, ranges w !! r = Some rg /\ _next rg < _end rg
  | Recycle _ => True
  end.

(** Bookkeeping like [Held], with the object of each call: [(r, id, obj)]
    is recorded when [r.nextId(obj)] returns [id] and dropped when [r] is
    recycled. *)
Definition Owned := list (ref * Z * Obj).

Definition stepOwned (c : call) (s : World * Owned) : option (World * Owned) :=
  match c with
  | GetContinuousRange num =>
      '(_, w) ← getContinuousRange num s.1; Some (w, s.2)
  | NextId r obj =>
      '(id, w) ← nextId r obj s.1; Some (w, (r, id, obj) :: s.2)
  | Recycle r =>
      w ← recycle r s.1;
      Some (w, filter (fun p => negb (Nat.eqb p.1.1 r)) s.2)
  end.

(** [reaches s cs s']: the calls [cs], each permitted where it is made,
    lead from [s] to [s']. *)
Inductive reaches : World * Owned -> list call -> World * Owned -> Prop :=
  | reaches_nil s : reaches s [] s
  | reaches_cons c cs s s1 s2 :
      permitted c s.1 -> stepOwned c s = Some s1 -> reaches s1 cs s2 ->
      reaches s (c :: cs) s2.

(** What use within the sizes asked for keeps true: the store is tiled
    from 0 to the high-water mark, which does not pass 65536; an id
    recorded for a range lies before that range's cursor and the table
    maps it to the recorded object; and no id is recorded twice. *)
Definition ownedSound (s : World * Owned) : Prop :=
  tiled 0 (ranges s.1) (_unusedRangeStart (pool s.1)) /\
  _unusedRangeStart (pool s.1) <= 65536 /\
  (forall r id obj, (r, id, obj) ∈ s.2 ->
     exists rg, ranges s.1 !! r = Some rg /\ _start rg <= id < _next rg /\
                objectForId id s.1 = Some obj) /\
  NoDup (map (fun p => p.1.2) s.2).

End WithObj.

Arguments ContinuousIdRange : clear implicits.
Arguments UniqueObjectIdPool : clear implicits.
Arguments World : clear implicits.
Arguments call : clear implicits.

(** A pool whose unused tail has six ids left. *)
Definition exampleFull : World string :=
  mkWorld (mkPool ∅ 65530 []) [mkRange 0 0 65530] [].

(** Two live ranges [[0, 2)] and [[2, 4)]; the second has given id 2 to
    ["b"]. *)
Definition exampleNeighbours : World string :=
  mkWorld (mkPool {[ 2 := "b"%string ]} 4 [])
          [mkRange 0 0 2; mkRange 2 3 4] [].

(** Two ranges carved from a new pool, [[0, 2)] and [[2, 5)]: the first
    hands out both its ids, the second hands out one and is recycled. *)
Definition exampleCalls : list (call string) :=
  [GetContinuousRange 2; GetContinuousRange 3; NextId 0%nat "a"%string;
   NextId 1%nat "b"%string; NextId 0%nat "c"%string; Recycle 1%nat].

Definition exampleCallsEnd : World string :=
  mkWorld (mkPool {[ 0 := "a"%string; 1 := "c"%string ]} 5 [1%nat])
          [mkRange 0 2 2; mkRange 2 2 5] [].

End IdPool.

(** ** MeshGeom: the vertex-array partitioner (scene.js, lines 491-549) *)
Module MeshGeom.

(** The class of a vertex array, as [instanceof MeshChainData] tells it;
    a [MeshChainData] carries its chain name. *)
Inductive VAClass :=
  | MeshChainData (chain : string)
  | IndexedVertexArray.

(** Modelled from the spec: the vertex-array classes are not in scene.js.
    A segment is created empty with a declared capacity: the constructors
    get the vertex capacity and the index capacity and start with no
    vertex and no index. *)
Record VertArray := mkVA {
  vaClass : VAClass;
  maxVerts : Z;
  numVerts : Z;
  maxIndices : Z;
  numIndices : Z
}.

Definition newMeshChainData (chain : string) (numVerts numIndices : Z) :=
  mkVA (MeshChainData chain) numVerts 0 numIndices 0.

Definition newIndexedVertexArray (numVerts numIndices : Z) :=
  mkVA IndexedVertexArray numVerts 0 numIndices 0.

Record t := mk {
  _indexedVertArrays : list VertArray;
  _remainingVerts : option Z;
  _remainingIndices : option Z
}.

(** The fields the constructor sets. *)
Definition new : t := mk [] None None.

Definition _boundedVertArraySize (size : Z) : Z := Z.min 65536 size.

(** Both [add...] functions return the new segment; a segment is named by
    its position in [_indexedVertArrays]. *)
Definition addChainVertArray (chainName : string) (numVerts numIndices : Z)
    (g : t) : nat * t :=
  let newVa := newMeshChainData chainName (_boundedVertArraySize numVerts)
                                numIndices in
  (length (_indexedVertArrays g),
   mk (_indexedVertArrays g ++ [newVa]) (Some numVerts) (Some numIndices)).

Definition addVertArray (numVerts numIndices : Z) (g : t) : nat * t :=
  let newVa := newIndexedVertexArray (_boundedVertArraySize numVerts)
                                     numIndices in
  (length (_indexedVertArrays g),
   mk (_indexedVertArrays g ++ [newVa]) (Some numVerts) (Some numIndices)).

Definition vertArray (index : nat) (g : t) : option VertArray :=
  _indexedVertArrays g !! index.

(** [None] is the TypeError of [currentVa.maxVerts()] on a container
    without a segment ([currentVa] is [undefined] there). *)
Definition vertArrayWithSpaceFor (numVerts_ : Z) (g : t) : option (nat * t) :=
  currentVa ← last (_indexedVertArrays g);
  let remaining := maxVerts currentVa - numVerts currentVa in
  if remaining >=? numVerts_ then
    Some (length (_indexedVertArrays g) - 1, g)%nat
  else
    let remainingVerts := toNumber (_remainingVerts g) - numVerts currentVa in
    let remainingIndices :=
      toNumber (_remainingIndices g) - numIndices currentVa in
    let numVerts_ := _boundedVertArraySize remainingVerts in
    let newVa :=
      match vaClass currentVa with
      | MeshChainData chain =>
          newMeshChainData chain numVerts_ remainingIndices
      | IndexedVertexArray =>
          newIndexedVertexArray numVerts_ remainingIndices
      end in
    Some (length (_indexedVertArrays g),
          mk (_indexedVertArrays g ++ [newVa])
             (Some remainingVerts) (Some remainingIndices)).

(** Modelled from the spec: appending vertices and indices to a segment is
    done by the vertex array itself, which is not in scene.js. It changes
    the segment's counts and never its capacities. *)
Definition setCounts (index : nat) (numVerts_ numIndices_ : Z) (g : t) : t :=
  mk (alter (fun va => mkVA (vaClass va) (maxVerts va) numVerts_
                            (maxIndices va) numIndices_)
            index (_indexedVertArrays g))
     (_remainingVerts g) (_remainingIndices g).

(** What a geometry builder does to a container. *)
Inductive op :=
  | AddChainVertArray (chainName : string) (numVerts_ numIndices_ : Z)
  | AddVertArray (numVerts_ numIndices_ : Z)
  | VertArrayWithSpaceFor (numVerts_ : Z)
  | SetCounts (index : nat) (numVerts_ numIndices_ : Z).

Definition apply (o : op) (g : t) : option t :=
  match o with
  | AddChainVertArray c nv ni => Some (addChainVertArray c nv ni g).2
  | AddVertArray nv ni => Some (addVertArray nv ni g).2
  | VertArrayWithSpaceFor n => snd <$> vertArrayWithSpaceFor n g
  | SetCounts i nv ni => Some (setCounts i nv ni g)
  end.

Fixpoint applyAll (os : list op) (g : t) : option t :=
  match os with
  | [] => Some g
  | o :: rest => g1 ← apply o g; applyAll rest g1
  end.

(** Every segment is within the 16-bit index limit. *)
Definition bounded (g : t) : Prop :=
  Forall (fun va => maxVerts va <= 65536) (_indexedVertArrays g).






End MeshGeom.

(** ** BaseGeom with its two subclasses (scene.js, lines 130-613)

    What scene.js takes from elsewhere is a parameter of the section: the
    vertex arrays with their chain tag and their own bounding methods, the
    camera and shader handles, gl-matrix's [vec3.transformMat4] and the
    structure provider. The vertex arrays' bounding methods take the
    transform as an optional last argument; a call that leaves it out
    passes [undefined], modelled by [None]. Calls on the rendering
    context, the camera, the vertex arrays and the console are recorded as
    a trace of [event]s in call order. *)
Module BaseGeom.

Inductive GeomClass := LineGeom | MeshGeom.

Section Scene.
Context {Transform Vec3 Shader Camera Atom VertArray Axes Intervals Num : Type}.

(** [vertArray.chain()] *)
Variable chain : VertArray -> string.
(** [vertArray.updateProjectionIntervals(xAxis, yAxis, zAxis, xInterval,
    yInterval, zInterval, transform)]: the three axes are [Axes], the
    three intervals it widens are [Intervals]. *)
Variable vaUpdateProjectionIntervals :
  VertArray -> Axes -> Intervals -> option Transform -> Intervals.
(** [vertArray.updateSquaredSphereRadius(center, radius, transform)] *)
Variable vaUpdateSquaredSphereRadius :
  VertArray -> Vec3 -> Num -> option Transform -> Num.
(** [atom.pos()] and [vec3.transformMat4(out, pos, matrix)] *)
Variable pos : Atom -> Vec3.
Variable transformMat4 : Vec3 -> Transform -> Vec3.

Record Generator := mkGenerator {
  chains : list string;
  matrices : list Transform
}.

Record Assembly := mkAssembly { generators : list Generator }.

Record Residue := mkResidue { centralAtom : option Atom }.

Record Chain := mkChain { name : string; residues : list Residue }.

(** The structure provider: [assembly(name)] answers [null] ([None]) for a
    name it does not have, [chainsByName(names)] the chains with these
    names, and [eachResidue] visits [allResidues] in order. *)
Record Structure := mkStructure {
  assembly : option string -> option Assembly;
  chainsByName : list string -> list Chain;
  allResidues : list Residue
}.

(** A shader catalog is an object read by property name. *)
Definition ShaderCatalog := string -> option Shader.

Inductive event :=
  | GlLineWidth
  | GlUniform1iSymId (shader : Shader) (value : Z)
  | CamBind (cam : Camera) (shader : Shader)
  | VaBind (va : VertArray) (shader : Shader)
  | VaDraw (va : VertArray)
  | VaReleaseAttribs (va : VertArray) (shader : Shader)
  | VaDrawSymmetryRelated (va : VertArray) (cam : Camera) (shader : Shader)
                          (transforms : list Transform)
  | ConsoleError (showRelated : option string)
  | Callback (atom : Atom) (position : Vec3).

(** A geometry container: [structure] is [this._vertAssocs[0]._structure],
    [vertArrays] what [this.vertArrays()] returns. *)
Record t := mk {
  class : GeomClass;
  _visible : bool;
  _showRelated : option string;
  vertArrays : list VertArray;
  structure : Structure
}.

Definition showRelated (go : t) : option string := _showRelated go.

Definition setShowRelated (rel : option string) (go : t) : t :=
  mk (class go) (_visible go) rel (vertArrays go) (structure go).

Definition eachCentralAtomAsym (s : Structure) : list event :=
  flat_map (fun residue =>
              match centralAtom residue with
              | None => []
              | Some a => [Callback a (pos a)]
              end)
           (allResidues s).

Definition eachCentralAtomSym (s : Structure) (gens : list Generator)
    : list event :=
  flat_map (fun gen =>
    let chs := chainsByName s (chains gen) in
    flat_map (fun matrix =>
      flat_map (fun ch =>
        flat_map (fun residue =>
                    match centralAtom residue with
                    | None => []
                    | Some a => [Callback a (transformMat4 (pos a) matrix)]
                    end)
                 (residues ch))
        chs)
      (matrices gen))
    gens.

(** The calls [eachCentralAtom] makes, in call order: the callback is
    what it is given to call, and it calls nothing else. *)
Definition eachCentralAtom (go : t) : list event :=
  match assembly (structure go) (showRelated go) with
  | None => eachCentralAtomAsym (structure go)
  | Some a => eachCentralAtomSym (structure go) (generators a)
  end.

(** The plain object [set] of [_vertArraysInvolving], by the names of its
    own properties; every one of them holds [true]. *)
Definition emptyObject : list string := [].

(** [set[k] = true]. The key ["__proto__"] is not stored: the assignment
    goes to the accessor a plain object inherits from [Object.prototype],
    whose setter ignores a value that is not an object. *)
Definition setTrue (k : string) (set : list string) : list string :=
  if String.eqb k "__proto__" then set else k :: set.

(** [set[k] === true]. A key that is not an own property reads an
    inherited property or [undefined], and none of these is [true]; the
    key ["__proto__"] reads the prototype object. *)
Definition isTrue (set : list string) (k : string) : bool :=
  if String.eqb k "__proto__" then false else bool_decide (k ∈ set).

Definition _vertArraysInvolving (go : t) (chs : list string)
    : list VertArray :=
  let set := foldl (fun set c => setTrue c set) emptyObject chs in
  filter (fun va => isTrue set (chain va) = true) (vertArrays go).

Definition shaderForStyleAndPass (c : GeomClass) (shaderCatalog : ShaderCatalog)
    (style pass : string) : option Shader :=
  match c with
  | LineGeom =>
      if String.eqb pass "outline" then None
      else if String.eqb pass "select" then shaderCatalog "select"%string
      else shaderCatalog "lines"%string
  | MeshGeom =>
      if String.eqb pass "outline" then shaderCatalog "outline"%string
      else if String.eqb pass "select" then shaderCatalog "select"%string
      else shaderCatalog style
  end.

Definition _drawVertArrays (c : GeomClass) (cam : Camera) (shader : Shader)
    (vas : list VertArray) (additionalTransforms : option (list Transform))
    : list event :=
  let plain :=
    flat_map (fun va => [VaBind va shader; VaDraw va;
                         VaReleaseAttribs va shader]) vas in
  match c, additionalTransforms with
  | LineGeom, Some ts =>
      GlLineWidth :: map (fun va => VaDrawSymmetryRelated va cam shader ts) vas
  | LineGeom, None =>
      GlLineWidth :: GlUniform1iSymId shader 255 :: CamBind cam shader :: plain
  | MeshGeom, Some ts =>
      map (fun va => VaDrawSymmetryRelated va cam shader ts) vas
  | MeshGeom, None =>
      CamBind cam shader :: GlUniform1iSymId shader 255 :: plain
  end.

(** What [_drawVertArrays] issues before the vertex arrays when it is
    given transforms: line geometry sets the line width first. *)
Definition symPrefix (c : GeomClass) : list event :=
  match c with LineGeom => [GlLineWidth] | MeshGeom => [] end.

Definition _drawSymmetryRelated (go : t) (cam : Camera) (shader : Shader)
    (a : Assembly) : list event :=
  flat_map (fun gen =>
              _drawVertArrays (class go) cam shader
                (_vertArraysInvolving go (chains gen)) (Some (matrices gen)))
           (generators a).

(** Modelled from the spec: the vertex array's [drawSymmetryRelated] is not
    in scene.js. It redraws the array once per transform of the list it
    is given, so one such call stands for these (segment, transform)
    draws. *)
Definition symmetryDraws (e : event) : list (VertArray * Transform) :=
  match e with
  | VaDrawSymmetryRelated va _ _ transforms => map (pair va) transforms
  | _ => []
  end.

(** Modelled from the spec: the draw count it gives for an assembly, the
    sum over the generators of the segments whose chain tag the generator
    lists times the generator's transforms. *)
Definition expectedSymmetryDraws (go : t) (a : Assembly) : nat :=
  sum_list (map (fun gen =>
                   length (filter (fun va => chain va ∈ chains gen)
                                  (vertArrays go))
                   * length (matrices gen))%nat
                (generators a)).

(** The vertex array a call is made on. *)
Definition eventVertArray (e : event) : option VertArray :=
  match e with
  | VaBind va _ | VaDraw va | VaReleaseAttribs va _
  | VaDrawSymmetryRelated va _ _ _ => Some va
  | _ => None
  end.

(** The vertex array of a plain [draw()] call. *)
Definition drawnVertArray (e : event) : option VertArray :=
  match e with VaDraw va => Some va | _ => None end.

Definition isConsoleError (e : event) : bool :=
  match e with ConsoleError _ => true | _ => false end.

(** [showRelated === 'asym'] *)
Definition isAsym (rel : option string) : bool :=
  match rel with
  | Some s => String.eqb s "asym"
  | None => false
  end.

Definition draw (go : t) (cam : Camera) (shaderCatalog : ShaderCatalog)
    (style pass : string) : list event :=
  if negb (_visible go) then []
  else
    match shaderForStyleAndPass (class go) shaderCatalog style pass with
    | None => []
    | Some shader =>
        if isAsym (showRelated go) then
          _drawVertArrays (class go) cam shader (vertArrays go) None
        else
          match assembly (structure go) (showRelated go) with
          | None =>
              ConsoleError (showRelated go)
                :: _drawVertArrays (class go) cam shader (vertArrays go) None
          | Some a => _drawSymmetryRelated go cam shader a
          end
    end.

Definition _updateProjectionIntervalsAsym (go : t) (axes : Axes)
    (intervals : Intervals) : Intervals :=
  foldl (fun acc va => vaUpdateProjectionIntervals va axes acc None)
        intervals (vertArrays go).

(** The generator loop shared by the two bounding functions: generators
    outermost, then the generator's transforms, then the affected vertex
    arrays. *)
Definition symLoop {A : Type} (go : t) (gens : list Generator)
    (body : A -> VertArray -> Transform -> A) (init : A) : A :=
  foldl (fun acc gen =>
           let affectedVertArrays := _vertArraysInvolving go (chains gen) in
           foldl (fun acc transform =>
                    foldl (fun acc va => body acc va transform)
                          acc affectedVertArrays)
                 acc (matrices gen))
        init gens.

Definition updateProjectionIntervals (go : t) (axes : Axes)
    (intervals : Intervals) : Intervals * list event :=
  if negb (_visible go) then (intervals, [])
  else if isAsym (showRelated go) then
    (_updateProjectionIntervalsAsym go axes intervals, [])
  else
    match assembly (structure go) (showRelated go) with
    | None => (_updateProjectionIntervalsAsym go axes intervals,
               [ConsoleError (showRelated go)])
    | Some a =>
        (symLoop go (generators a)
           (fun acc va transform =>
              vaUpdateProjectionIntervals va axes acc (Some transform))
           intervals, [])
    end.

Definition _updateSquaredSphereRadiusAsym (go : t) (center : Vec3)
    (radius : Num) : Num :=
  foldl (fun radius va => vaUpdateSquaredSphereRadius va center radius None)
        radius (vertArrays go).

(** In the generator loop [transform] is read from the generator and the
    vertex array is then called with [center] and [radius] only. *)
Definition updateSquaredSphereRadius (go : t) (center : Vec3) (radius : Num)
    : Num * list event :=
  if negb (_visible go) then (radius, [])
  else if isAsym (showRelated go) then
    (_updateSquaredSphereRadiusAsym go center radius, [])
  else
    match assembly (structure go) (showRelated go) with
    | None => (_updateSquaredSphereRadiusAsym go center radius,
               [ConsoleError (showRelated go)])
    | Some a =>
        (symLoop go (generators a)
           (fun radius va transform =>
              vaUpdateSquaredSphereRadius va center radius None)
           radius, [])
    end.

(** Modelled from the spec: the generator's [matrix(i)] is not in
    scene.js. It reads [matrices()[i]]; an index outside the array reads
    [undefined], which like [null] is [None] here. *)
Definition matrix (gen : Generator) (index : Z) : option Transform :=
  if index <? 0 then None else matrices gen !! Z.to_nat index.

(** The loop of [symWithIndex] over the generators. *)
Fixpoint symWithIndexFrom (gens : list Generator) (index : Z)
    : option Transform :=
  match gens with
  | [] => None
  | gen :: rest =>
      if Z.of_nat (length (matrices gen)) >? index then matrix gen index
      else symWithIndexFrom rest (index - Z.of_nat (length (matrices gen)))
  end.

Definition symWithIndex (go : t) (index : Z) : option Transform :=
  if isAsym (showRelated go) then None
  else
    match assembly (structure go) (showRelated go) with
    | None => None
    | Some a => symWithIndexFrom (generators a) index
    end.

(** A vertex-array bounding method that only records how it is called:
    on which array and with which transform. *)
Definition logVisit (va : VertArray) (axes : Axes)
    (visits : list (VertArray * option Transform))
    (transform : option Transform) : list (VertArray * option Transform) :=
  visits ++ [(va, transform)].

(** The central atoms of some chains, in iteration order. *)
Definition centralAtoms (chs : list Chain) : list Atom :=
  flat_map (fun ch => omap centralAtom (residues ch)) chs.

End Scene.

End BaseGeom.

(** ** A concrete scene

    Integer coordinates, translations for transforms, and vertex arrays
    that are a chain tag with a list of vertex positions. *)
Module Demo.

Definition Vec3 : Type := Z * Z * Z.

(** A transform is the translation by its offset. *)
Definition Transform : Type := Vec3.

Definition transformMat4 (p : Vec3) (m : Transform) : Vec3 :=
  let '(x, y, z) := p in
  let '(dx, dy, dz) := m in
  (x + dx, y + dy, z + dz).

Definition sqrDist (a b : Vec3) : Z :=
  let '(ax, ay, az) := a in
  let '(bx, by_, bz) := b in
  (ax - bx) * (ax - bx) + (ay - by_) * (ay - by_) + (az - bz) * (az - bz).

Record VertArray := mkVA { chain : string; positions : list Vec3 }.

(** An integer coordinate as the double it is in a [Range]. *)
Definition number (z : Z) : PrimFloat.float :=
  FloatOps.SF2Prim (SpecFloat.binary_normalize FloatOps.prec FloatOps.emax
                                               z 0 false).

Definition applyOpt (transform : option Transform) (p : Vec3) : Vec3 :=
  match transform with
  | Some m => transformMat4 p m
  | None => p
  end.

(** Modelled from the spec: the vertex array's [updateSquaredSphereRadius]
    is not in scene.js. It widens the squared radius over every vertex
    position, with the transform applied to the position first when one
    is given. *)
Definition vaUpdateSquaredSphereRadius (va : VertArray) (center : Vec3)
    (radius : Z) (transform : option Transform) : Z :=
  foldl (fun radius p => Z.max radius (sqrDist center (applyOpt transform p)))
        radius (positions va).

(** Modelled from the spec: the vertex array's [updateProjectionIntervals]
    is not in scene.js. It widens one interval per axis by the coordinate
    of every vertex position, transformed first when a transform is
    given; the axes here are the coordinate axes. *)
Definition vaUpdateProjectionIntervals (va : VertArray) (axes : unit)
    (intervals : Range.t * Range.t * Range.t) (transform : option Transform)
    : Range.t * Range.t * Range.t :=
  foldl (fun '(xi, yi, zi) p =>
           let '(x, y, z) := applyOpt transform p in
           (Range.update (number x) xi, Range.update (number y) yi,
            Range.update (number z) zi))
        intervals (positions va).

Definition Atom : Type := string * Vec3.
Definition pos (a : Atom) : Vec3 := a.2.

Definition Generator := @BaseGeom.Generator Transform.
Definition Assembly := @BaseGeom.Assembly Transform.
Definition Structure := @BaseGeom.Structure Transform Atom.
Definition Geom := @BaseGeom.t Transform Atom VertArray.
Definition event := @BaseGeom.event Transform Vec3 string unit Atom VertArray.

(** Chain [A] with one vertex at (1, 0, 0) and chain [B] with one at
    (0, 2, 0). *)
Definition vaA : VertArray := mkVA "A" [(1, 0, 0)].
Definition vaB : VertArray := mkVA "B" [(0, 2, 0)].

Definition atomA : Atom := ("CA"%string, (1, 0, 0)).

(** Assembly ["1"]: chain [A] under the translation by (10, 0, 0). *)
Definition assembly1 : Assembly :=
  BaseGeom.mkAssembly [BaseGeom.mkGenerator ["A"%string] [(10, 0, 0)]].

Definition chainA : @BaseGeom.Chain Atom :=
  BaseGeom.mkChain "A" [BaseGeom.mkResidue (Some atomA)].

(** A structure whose only assembly is ["1"]. *)
Definition structure1 : Structure :=
  BaseGeom.mkStructure
    (fun name => match name with
                 | Some n => if String.eqb n "1" then Some assembly1 else None
                 | None => None
                 end)
    (fun names => filter (fun c => BaseGeom.name c ∈ names) [chainA])
    [BaseGeom.mkResidue (Some atomA)].

Definition geom (c : BaseGeom.GeomClass) (rel : option string) : Geom :=
  BaseGeom.mk c true rel [vaA; vaB] structure1.

(** A catalog with a shader for every name. *)
Definition catalog : string -> option string := fun name => Some name.

End Demo.

(** ** smallestPowerOfTwo (scene.js, lines 671-677)

    [size] and [s] are JavaScript numbers, so doubles: [s *= 2] rounds as
    a double does and ends at [Infinity]. The [while] loop runs on fuel;
    [smallestPowerOfTwo] gives it more than any size can use. *)
Module TextLabel.
Import Floats.PrimFloat.

Fixpoint loop (fuel : nat) (s size : float) : option float :=
  match fuel with
  | O => None
  | S fuel' => if (s <? size)%float then loop fuel' (s * 2)%float size
               else Some s
  end.

Definition smallestPowerOfTwo (size : float) : option float :=
  loop 1025 1%float size.

(** [s] after [k] rounds of the loop body. *)
Definition doubled (k : nat) (s : float) : float :=
  Nat.iter k (fun s => s * 2)%float s.

End TextLabel.

(** * Properties *)

(** ** The order of doubles

    [<], [<=] and [==] on doubles, through their specification in
    [SpecFloat]: what [Range.update] relies on holds among the values
    that are not NaN. *)
Module FloatOrder.
Import Floats.PrimFloat Floats.SpecFloat Floats.FloatOps Floats.FloatAxioms.

Ltac cmp_cases :=
  repeat match goal with
  | |- context [PosDef.Pos.compare_cont Eq ?a ?b] =>
      change (PosDef.Pos.compare_cont Eq a b) with (Pos.compare a b)
  | H : context [PosDef.Pos.compare_cont Eq ?a ?b] |- _ =>
      change (PosDef.Pos.compare_cont Eq a b) with (Pos.compare a b) in H
  | |- context [Z.compare ?a ?b] => destruct (Z.compare_spec a b)
  | H : context [Z.compare ?a ?b] |- _ => destruct (Z.compare_spec a b)
  | |- context [Pos.compare ?a ?b] => destruct (Pos.compare_spec a b)
  | H : context [Pos.compare ?a ?b] |- _ => destruct (Pos.compare_spec a b)
  end.

Ltac sf_cases f := destruct f as [ [] | [] | | [] ? ? ].

Ltac sf_solve :=
  unfold SFltb, SFleb, SFeqb; simpl; try done; intros; cmp_cases;
  simpl in *; try done; try lia.

Lemma SFltb_leb_trans f1 f2 f3 :
  SFltb f1 f2 = true -> SFleb f2 f3 = true -> SFleb f1 f3 = true.
Proof. sf_cases f1; sf_cases f2; sf_cases f3; sf_solve. Qed.

Lemma SFleb_ltb_trans f1 f2 f3 :
  SFleb f1 f2 = true -> SFltb f2 f3 = true -> SFleb f1 f3 = true.
Proof. sf_cases f1; sf_cases f2; sf_cases f3; sf_solve. Qed.

Lemma SFleb_total f1 f2 :
  f1 <> S754_nan -> f2 <> S754_nan -> SFltb f1 f2 = false -> SFleb f2 f1 = true.
Proof. sf_cases f1; sf_cases f2; sf_solve. Qed.

Lemma SFleb_antisym f1 f2 :
  SFleb f1 f2 = true -> SFleb f2 f1 = true -> SFeqb f1 f2 = true.
Proof. sf_cases f1; sf_cases f2; sf_solve. Qed.

Lemma SFleb_refl f : f <> S754_nan -> SFleb f f = true.
Proof. sf_cases f; sf_solve. Qed.

Lemma is_nan_false (x : float) : is_nan x = false -> Prim2SF x <> S754_nan.
Proof.
  unfold is_nan. rewrite eqb_spec. intros H Hn. rewrite Hn in H. done.
Qed.

Section Order.
Implicit Types x y z : float.
Local Open Scope float_scope.

Lemma ltb_leb_trans x y z :
  (x <? y) = true -> (y <=? z) = true -> (x <=? z) = true.
Proof. rewrite ltb_spec, !leb_spec. apply SFltb_leb_trans. Qed.

Lemma leb_ltb_trans x y z :
  (x <=? y) = true -> (y <? z) = true -> (x <=? z) = true.
Proof. rewrite ltb_spec, !leb_spec. apply SFleb_ltb_trans. Qed.

Lemma leb_total x y :
  is_nan x = false -> is_nan y = false -> (x <? y) = false -> (y <=? x) = true.
Proof.
  intros Hx%is_nan_false Hy%is_nan_false. rewrite ltb_spec, leb_spec.
  by apply SFleb_total.
Qed.

Lemma leb_antisym x y : (x <=? y) = true -> (y <=? x) = true -> (x =? y) = true.
Proof. rewrite !leb_spec, eqb_spec. apply SFleb_antisym. Qed.

Lemma leb_refl x : is_nan x = false -> (x <=? x) = true.
Proof. intros Hx%is_nan_false. rewrite leb_spec. by apply SFleb_refl. Qed.

(** Nothing is above [Infinity]. *)
Lemma infinity_not_below x : (infinity <? x) = false.
Proof.
  rewrite ltb_spec.
  replace (Prim2SF infinity) with (S754_infinity false) by reflexivity.
  by destruct (Prim2SF x) as [ [] | [] | | [] ? ? ].
Qed.

End Order.
End FloatOrder.

(** ** Range *)
Module RangeFacts.
Import Floats.PrimFloat Range FloatOrder.

Example Range_update_ex : updates [3; -1; 7; 2]%float new = make (-1) 7.
Proof. reflexivity. Qed.

(** Zero comes in two signs, which [<] and [>] do not tell apart: the
    first one passed stays. *)
Example Range_update_zeros :
  updates [0; -0]%float new = make 0 0 /\
  updates [-0; 0]%float new = make (-0) (-0) /\
  make 0 0 <> make (-0) (-0).
Proof.
  repeat split. intros H.
  apply (f_equal (fun r => (1 / toNumber (_min r) <? 0)%float)) in H.
  vm_compute in H. discriminate.
Qed.

Lemma spans_eq r lo hi : spans r lo hi -> r = mk false (Some lo) (Some hi).
Proof. destruct r; intros (? & ? & ?); simpl in *; congruence. Qed.

Lemma update_new v : is_nan v = false -> covers (update v new) [v].
Proof.
  intros Hv. exists v, v. repeat split; try apply list_elem_of_singleton; auto.
  repeat constructor; by apply leb_refl.
Qed.

Lemma update_covers v r seen :
  numbers (v :: seen) -> covers r seen -> covers (update v r) (v :: seen).
Proof.
  intros [Hv Hnum]%Forall_cons (lo & hi & Hs & Hlo & Hhi & Hall).
  unfold numbers in Hnum. rewrite Forall_forall in Hnum, Hall.
  pose proof (Hnum _ Hlo) as Hnlo. pose proof (Hnum _ Hhi) as Hnhi.
  destruct (Hall _ Hlo) as [_ Hlohi].
  rewrite (spans_eq _ _ _ Hs). unfold update, toNumber; simpl.
  destruct (v <? lo)%float eqn:Hvlo; [ | destruct (hi <? v)%float eqn:Hhiv ].
  - exists v, hi. repeat split; [ left | by right | ].
    apply Forall_cons. split.
    + split; [ by apply leb_refl | by apply (ltb_leb_trans _ lo) ].
    + apply Forall_forall. intros x Hx. destruct (Hall _ Hx) as [Hl Hu].
      split; [ by apply (ltb_leb_trans _ lo) | done ].
  - exists lo, v. repeat split; [ by right | left | ].
    apply Forall_cons. split.
    + split; [ by apply leb_total | by apply leb_refl ].
    + apply Forall_forall. intros x Hx. destruct (Hall _ Hx) as [Hl Hu].
      split; [ done | by apply (leb_ltb_trans _ hi) ].
  - exists lo, hi. repeat split; [ by right | by right | ].
    apply Forall_cons. split.
    + split; by apply leb_total.
    + by apply Forall_forall.
Qed.

Lemma updates_covers vs : forall r seen,
  numbers (vs ++ seen) -> covers r seen ->
  covers (updates vs r) (rev vs ++ seen).
Proof.
  induction vs as [ | v vs IH ]; intros r seen Hnum H; [ exact H | ].
  simpl. rewrite <- app_assoc. simpl in Hnum.
  apply Forall_cons in Hnum as [Hv Hnum]. apply Forall_app in Hnum as [Hvs Hseen].
  apply IH.
  - apply Forall_app. split; [ done | by apply Forall_cons ].
  - apply update_covers; [ by apply Forall_cons | done ].
Qed.

Lemma covers_perm r seen seen' : seen ≡ₚ seen' -> covers r seen -> covers r seen'.
Proof.
  intros Hp (lo & hi & Hs & Hlo & Hhi & Hall).
  exists lo, hi. rewrite <- Hp. auto.
Qed.

Lemma updates_new_covers v vs :
  numbers (v :: vs) -> covers (updates (v :: vs) new) (v :: vs).
Proof.
  intros Hnum. pose proof Hnum as [Hv Hvs]%Forall_cons.
  change (updates (v :: vs) new) with (updates vs (update v new)).
  eapply covers_perm; [ | apply updates_covers; [ | by apply update_new ] ].
  - rewrite <- (Permutation_rev vs). symmetry. apply Permutation_cons_append.
  - apply Forall_app. split; [ done | by apply Forall_cons ].
Qed.

(** Two ranges that cover the same values have equal bounds, as numbers. *)
Lemma covers_same r r' seen : covers r seen -> covers r' seen -> sameRange r r'.
Proof.
  intros (lo & hi & Hs & Hlo & Hhi & Hall) (lo' & hi' & Hs' & Hlo' & Hhi' & Hall').
  rewrite Forall_forall in Hall, Hall'.
  destruct (Hall _ Hlo') as [? _]. destruct (Hall _ Hhi') as [_ ?].
  destruct (Hall' _ Hlo) as [? _]. destruct (Hall' _ Hhi) as [_ ?].
  rewrite (spans_eq _ _ _ Hs), (spans_eq _ _ _ Hs').
  repeat split; simpl; by apply leb_antisym.
Qed.

Lemma updates_perm vs vs' :
  vs ≡ₚ vs' -> numbers vs -> sameRange (updates vs new) (updates vs' new).
Proof.
  intros Hp Hnum. destruct vs as [ | v vs ], vs' as [ | v' vs' ].
  - repeat split.
  - by apply Permutation_nil_cons in Hp.
  - symmetry in Hp. by apply Permutation_nil_cons in Hp.
  - apply (covers_same _ _ (v' :: vs')).
    + eapply covers_perm; [ exact Hp | by apply updates_new_covers ].
    + apply updates_new_covers. unfold numbers. by rewrite <- Hp.
Qed.

(** C9, for values none of which is NaN. From [new Range()], a
    non-empty sequence of [update] calls leaves the range non-empty with
    [_min] and [_max] two of the values passed, [_min] not above and
    [_max] not below any of them; one more [update] only widens it;
    another order of the calls gives bounds that are equal as numbers;
    and with no call the range is still empty. *)
Theorem Range_update_accumulates :
  (forall v vs, numbers (v :: vs) ->
     exists lo hi,
       spans (updates (v :: vs) new) lo hi /\
       lo ∈ v :: vs /\ hi ∈ v :: vs /\
       Forall (fun x => (lo <=? x)%float = true /\ (x <=? hi)%float = true)
              (v :: vs)) /\
  (forall v vs x, numbers (x :: v :: vs) ->
     exists lo hi lo' hi',
       spans (updates (v :: vs) new) lo hi /\
       spans (update x (updates (v :: vs) new)) lo' hi' /\
       (lo' <=? lo)%float = true /\ (hi <=? hi')%float = true) /\
  (forall vs vs', vs ≡ₚ vs' -> numbers vs ->
     sameRange (updates vs new) (updates vs' new)) /\
  empty (updates [] new) = true.
Proof.
  split; [ exact updates_new_covers | ].
  split; [ | split; [ exact updates_perm | reflexivity ] ].
  intros v vs x Hnum. pose proof Hnum as [_ Hvs]%Forall_cons.
  pose proof (updates_new_covers v vs Hvs) as Hc.
  destruct (update_covers x _ _ Hnum Hc) as (lo' & hi' & Hs' & _ & _ & Hall').
  destruct Hc as (lo & hi & Hs & Hlo & Hhi & Hall).
  exists lo, hi, lo', hi'. repeat split; try apply Hs; try apply Hs'.
  - apply Forall_cons in Hall' as [_ Hall']. rewrite Forall_forall in Hall'.
    apply (Hall' lo Hlo).
  - apply Forall_cons in Hall' as [_ Hall']. rewrite Forall_forall in Hall'.
    apply (Hall' hi Hhi).
Qed.

(** The order-independence part of [Range_update_accumulates] on two
    orders of the same four values. *)
Lemma Range_update_accumulates_witness :
  sameRange (updates [3; -1; 7; 2]%float new) (updates [7; 2; 3; -1]%float new).
Proof.
  apply (proj1 (proj2 (proj2 Range_update_accumulates))).
  - change [7; 2; 3; -1]%float with ([7; 2] ++ [3; -1])%float.
    change [3; -1; 7; 2]%float with ([3; -1] ++ [7; 2])%float.
    apply Permutation_app_comm.
  - repeat constructor.
Defined.

(** The claim C9 as stated, for all values, fails with NaN among them:
    every comparison with NaN is false, so a NaN passed first stays in
    both bounds and a NaN passed later is dropped. The same two values
    in the two orders leave different ranges, and after the first order
    neither bound is the least or the greatest value. *)
Lemma Range_update_nan_order :
  [nan; 3%float] ≡ₚ [3%float; nan] /\
  updates [nan; 3%float] new = make nan nan /\
  updates [3%float; nan] new = make 3 3 /\
  ~ sameRange (updates [nan; 3%float] new) (updates [3%float; nan] new).
Proof.
  split; [ apply perm_swap | ]. repeat split.
  intros (_ & H & _). vm_compute in H. done.
Qed.

End RangeFacts.

(** ** The id pool *)
Module IdPoolFacts.
Import IdPool.

Section WithObj.
Context {Obj : Type}.
Implicit Types (w : World Obj) (r : ref) (rg : ContinuousIdRange).

(** *** The best-fit scan *)

Lemma lookup_snoc_inv (seen : list Z) (x : Z) (j : nat) (y : Z) :
  (seen ++ [x]) !! j = Some y ->
  seen !! j = Some y \/ (j = length seen /\ y = x).
Proof.
  intros H. destruct (decide (j < length seen)%nat).
  - left. by rewrite lookup_app_l in H.
  - right. rewrite lookup_app_r in H by lia.
    apply list_lookup_singleton_Some in H as [? <-]. split; [ lia | done ].
Qed.

Lemma bestSoFar_take num seen L0 :
  num <= L0 ->
  (forall (j : nat) L', seen !! j = Some L' -> num <= L' -> L0 < L') ->
  bestSoFar num (seen ++ [L0]) (Z.of_nat (length seen)) (Some L0).
Proof.
  intros Hge Hprev. right. exists (length seen), L0.
  split; [ done | ]. split; [ done | ].
  split; [ by rewrite lookup_app_r, Nat.sub_diag | ]. split; [ done | ].
  intros j L' Hj HL'.
  apply lookup_snoc_inv in Hj as [Hj | [-> ->]]; [ | lia ].
  specialize (Hprev _ _ Hj HL'). lia.
Qed.

Lemma bestSoFar_keep num seen L0 k L :
  seen !! k = Some L -> num <= L -> (num <= L0 -> L <= L0) ->
  (forall (j : nat) L', seen !! j = Some L' -> num <= L' ->
                        L <= L' /\ (L' = L -> (k <= j)%nat)) ->
  bestSoFar num (seen ++ [L0]) (Z.of_nat k) (Some L).
Proof.
  intros Hk HL Hnew Hbest. right. exists k, L.
  pose proof (lookup_lt_Some _ _ _ Hk).
  split; [ done | ]. split; [ done | ].
  split; [ by rewrite lookup_app_l | ]. split; [ done | ].
  intros j L' Hj HL'.
  apply lookup_snoc_inv in Hj as [Hj | [-> ->]]; [ by apply Hbest | ].
  split; [ by apply Hnew | lia ].
Qed.

Lemma bestFit_bestSoFar num lens : forall seen bestIndex bestLength,
  bestSoFar num seen bestIndex bestLength ->
  bestSoFar num (seen ++ lens)
    (bestFit num lens (Z.of_nat (length seen)) bestIndex bestLength).1
    (bestFit num lens (Z.of_nat (length seen)) bestIndex bestLength).2.
Proof.
  induction lens as [ | L0 lens IH ]; intros seen bi bl H.
  { by rewrite app_nil_r. }
  assert (Hi : Z.of_nat (length seen) + 1 = Z.of_nat (length (seen ++ [L0]))).
  { rewrite length_app. simpl. lia. }
  replace (seen ++ L0 :: lens) with ((seen ++ [L0]) ++ lens)
    by (by rewrite <- app_assoc).
  simpl. rewrite Hi.
  destruct H as [(-> & -> & Hall) | (k & L & -> & -> & Hk & HL & Hbest)].
  - rewrite Forall_forall in Hall.
    destruct (Z.geb_spec L0 num) as [Hge | Hlt]; simpl; apply IH.
    + apply bestSoFar_take; [ done | ].
      intros j L' Hj HL'. apply list_elem_of_lookup_2, Hall in Hj. lia.
    + left. split; [ done | ]. split; [ done | ].
      apply Forall_app. split; [ by apply Forall_forall | ].
      by repeat constructor.
  - destruct (Z.geb_spec L0 num) as [Hge | Hlt]; simpl;
      [ destruct (Z.ltb_spec L0 L) as [Hless | Hmore] | ]; apply IH.
    + apply bestSoFar_take; [ done | ].
      intros j L' Hj HL'. destruct (Hbest _ _ Hj HL'). lia.
    + apply bestSoFar_keep; auto.
    + apply bestSoFar_keep; auto. lia.
Qed.

Lemma bestFit_spec num lens :
  bestSoFar num lens (bestFit num lens 0 (-1) None).1
                     (bestFit num lens 0 (-1) None).2.
Proof.
  apply (bestFit_bestSoFar num lens [] (-1) None).
  left. repeat split; constructor.
Qed.

(** *** getContinuousRange *)

Lemma freeLengths_lookup w lens (k : nat) L :
  freeLengths w = Some lens -> lens !! k = Some L ->
  exists r rg, _free (pool w) !! k = Some r /\ ranges w !! r = Some rg /\
               rangeLength rg = L.
Proof.
  unfold freeLengths. rewrite mapM_Some. intros Hall Hk.
  destruct (Forall2_lookup_r _ _ _ _ _ Hall Hk) as (r & Hr & Hlen).
  destruct (ranges w !! r) as [rg | ] eqn:Hrg; simplify_eq/=.
  by exists r, rg.
Qed.

Lemma getContinuousRange_hit w num lens (k : nat) :
  freeLengths w = Some lens ->
  (bestFit num lens 0 (-1) None).1 = Z.of_nat k ->
  getContinuousRange num w =
    r ← _free (pool w) !! k;
    Some (Some r,
          mkWorld (mkPool (_objects (pool w)) (_unusedRangeStart (pool w))
                          (delete k (_free (pool w))))
                  (ranges w) (console w)).
Proof.
  intros Hlens Hbest. unfold getContinuousRange.
  rewrite Hlens. simpl. rewrite Hbest.
  destruct (Z.eqb_spec (Z.of_nat k) (-1)); [ lia | ].
  simpl. by rewrite Nat2Z.id.
Qed.

Lemma getContinuousRange_miss w num lens :
  freeLengths w = Some lens ->
  (bestFit num lens 0 (-1) None).1 = -1 ->
  getContinuousRange num w =
    if _unusedRangeStart (pool w) + num >? 65536 then
      Some (None,
            mkWorld (pool w) (ranges w)
                    (console w ++ ["not enough free object ids."%string]))
    else
      Some (Some (length (ranges w)),
            mkWorld (mkPool (_objects (pool w))
                            (_unusedRangeStart (pool w) + num)
                            (_free (pool w)))
                    (ranges w ++ [mkRange (_unusedRangeStart (pool w))
                                          (_unusedRangeStart (pool w))
                                          (_unusedRangeStart (pool w) + num)])
                    (console w)).
Proof.
  intros Hlens Hbest. unfold getContinuousRange.
  rewrite Hlens. simpl. by rewrite Hbest.
Qed.

(** No free range fits exactly when the scan ends with [bestIndex = -1]. *)
Lemma bestFit_none num lens :
  Forall (fun L => L < num) lens -> (bestFit num lens 0 (-1) None).1 = -1.
Proof.
  intros Hall.
  destruct (bestFit_spec num lens) as [(? & _) | (k & L & _ & _ & Hk & HL & _)].
  - done.
  - rewrite Forall_forall in Hall.
    apply list_elem_of_lookup_2, Hall in Hk. lia.
Qed.

Lemma bestFit_some num lens :
  Exists (fun L => num <= L) lens ->
  exists (k : nat) L,
    (bestFit num lens 0 (-1) None).1 = Z.of_nat k /\
    lens !! k = Some L /\ num <= L /\
    forall (j : nat) L', lens !! j = Some L' -> num <= L' ->
                         L <= L' /\ (L' = L -> (k <= j)%nat).
Proof.
  intros Hex.
  destruct (bestFit_spec num lens) as [(_ & _ & Hall) | (k & L & ? & _ & ?)].
  - apply Exists_exists in Hex as (L & Hin & HL).
    rewrite Forall_forall in Hall. apply Hall in Hin. lia.
  - by exists k, L.
Qed.

(** A range object appended to the store changes the store. *)
Lemma snoc_ne (l : list ContinuousIdRange) x : l ++ [x] <> l.
Proof.
  intros H. apply (f_equal length) in H. rewrite length_app in H.
  simpl in H. lia.
Qed.

Lemma exampleFree_reached :
  run [GetContinuousRange 5; GetContinuousRange 10; GetContinuousRange 3;
       Recycle 0%nat; Recycle 1%nat; Recycle 2%nat] (newPool, [])
  = Some (exampleFree : World Obj, []).
Proof. reflexivity. Qed.

(** C2. [getContinuousRange] takes from the free list the first range of
    the least length that is at least [num], and takes it off the list;
    a new range object is created only when no free range is long enough;
    with free lengths 5, 10, 3 a request for 4 gets the range of length 5. *)
Theorem getContinuousRange_best_fit :
  (forall w num lens,
     freeLengths w = Some lens ->
     (Exists (fun L => num <= L) lens ->
      exists (i : nat) r L,
        getContinuousRange num w =
          Some (Some r,
                mkWorld (mkPool (_objects (pool w))
                                (_unusedRangeStart (pool w))
                                (delete i (_free (pool w))))
                        (ranges w) (console w)) /\
        _free (pool w) !! i = Some r /\ lens !! i = Some L /\ num <= L /\
        forall (j : nat) L', lens !! j = Some L' -> num <= L' ->
                             L <= L' /\ (L' = L -> (i <= j)%nat)) /\
     (forall res w', getContinuousRange num w = Some (res, w') ->
                     ranges w' <> ranges w ->
                     Forall (fun L => L < num) lens)) /\
  freeLengths (exampleFree : World Obj) = Some [5; 10; 3] /\
  exists w', getContinuousRange 4 (exampleFree : World Obj)
             = Some (Some 0%nat, w') /\
             rangeLength <$> ranges w' !! 0%nat = Some 5.
Proof.
  split; [ | split; [ reflexivity | eexists; split; reflexivity ] ].
  intros w num lens Hlens. split.
  - intros Hex.
    destruct (bestFit_some _ _ Hex) as (k & L & Hbest & Hk & HL & Hmin).
    destruct (freeLengths_lookup _ _ _ _ Hlens Hk) as (r & rg & Hr & _).
    exists k, r, L. split; [ | done ].
    rewrite (getContinuousRange_hit _ _ _ _ Hlens Hbest), Hr. done.
  - intros res w' Hget Hnew.
    destruct (decide (Forall (fun L => L < num) lens)) as [ | Hno ]; [ done | ].
    exfalso. apply Hnew.
    apply not_Forall_Exists in Hno; [ | apply _ ].
    assert (Hex : Exists (fun L => num <= L) lens).
    { eapply Exists_impl; [ exact Hno | ]. simpl. intros; lia. }
    destruct (bestFit_some _ _ Hex) as (k & L & Hbest & Hk & _).
    destruct (freeLengths_lookup _ _ _ _ Hlens Hk) as (r & rg & Hr & _).
    rewrite (getContinuousRange_hit _ _ _ _ Hlens Hbest), Hr in Hget.
    by simplify_eq/=.
Qed.

(** C8. When no free range is long enough, [getContinuousRange] logs and
    returns [null] with the pool as it was if the tail would pass 65536,
    and otherwise returns a new range from the high-water mark, which it
    advances by [num]. *)
Theorem getContinuousRange_tail w num lens :
  freeLengths w = Some lens ->
  Forall (fun L => L < num) lens ->
  (65536 < _unusedRangeStart (pool w) + num ->
   getContinuousRange num w =
     Some (None,
           mkWorld (pool w) (ranges w)
                   (console w ++ ["not enough free object ids."%string]))) /\
  (_unusedRangeStart (pool w) + num <= 65536 ->
   getContinuousRange num w =
     Some (Some (length (ranges w)),
           mkWorld (mkPool (_objects (pool w))
                           (_unusedRangeStart (pool w) + num)
                           (_free (pool w)))
                   (ranges w ++ [mkRange (_unusedRangeStart (pool w))
                                         (_unusedRangeStart (pool w))
                                         (_unusedRangeStart (pool w) + num)])
                   (console w))).
Proof.
  intros Hlens Hall.
  rewrite (getContinuousRange_miss _ _ _ Hlens (bestFit_none _ _ Hall)).
  split; intros H.
  - by destruct (Z.gtb_spec (_unusedRangeStart (pool w) + num) 65536); [ | lia ].
  - by destruct (Z.gtb_spec (_unusedRangeStart (pool w) + num) 65536); [ lia | ].
Qed.

(** *** nextId *)

Lemma nextId_Some w r rg obj :
  ranges w !! r = Some rg ->
  nextId r obj w =
    Some (_next rg,
          mkWorld (mkPool (<[_next rg := obj]> (_objects (pool w)))
                          (_unusedRangeStart (pool w)) (_free (pool w)))
                  (<[r := mkRange (_start rg) (_next rg + 1) (_end rg)]>
                     (ranges w))
                  (console w)).
Proof. intros H. unfold nextId. by rewrite H. Qed.

(** [k] calls in a row return [_next], [_next + 1], ... and leave each of
    these ids mapped to the object of its call; nothing in the function
    looks at [_end]. *)
Lemma nextIds_spec (objs : list Obj) : forall w r rg,
  ranges w !! r = Some rg ->
  exists w2,
    nextIds r objs w = Some (seqZ (_next rg) (Z.of_nat (length objs)), w2) /\
    ranges w2 !! r =
      Some (mkRange (_start rg) (_next rg + Z.of_nat (length objs)) (_end rg)) /\
    (forall (i : nat) obj, objs !! i = Some obj ->
                           objectForId (_next rg + Z.of_nat i) w2 = Some obj) /\
    (forall id, id < _next rg -> objectForId id w2 = objectForId id w).
Proof.
  induction objs as [ | obj objs IH ]; intros w r rg Hr.
  - exists w. simpl. rewrite Z.add_0_r. destruct rg. by repeat split.
  - pose proof (lookup_lt_Some _ _ _ Hr) as Hlt.
    set (w1 := mkWorld (mkPool (<[_next rg := obj]> (_objects (pool w)))
                          (_unusedRangeStart (pool w)) (_free (pool w)))
                  (<[r := mkRange (_start rg) (_next rg + 1) (_end rg)]>
                     (ranges w))
                  (console w)).
    assert (Hr1 : ranges w1 !! r
                  = Some (mkRange (_start rg) (_next rg + 1) (_end rg))).
    { simpl. by apply list_lookup_insert_eq. }
    destruct (IH w1 r _ Hr1) as (w2 & Hrun & Hr2 & Hnew & Hold).
    simpl in Hrun, Hr2, Hnew, Hold.
    exists w2. split; [ | split; [ | split ] ].
    + simpl. rewrite (nextId_Some _ _ _ _ Hr). fold w1. simpl.
      rewrite Hrun. simpl. f_equal. f_equal.
      rewrite (seqZ_cons (_next rg)) by lia. f_equal. f_equal; lia.
    + rewrite Hr2. simpl length. do 2 f_equal. lia.
    + intros [ | i ] o Ho; simpl in Ho.
      * simplify_eq. rewrite Z.add_0_r, Hold by lia.
        unfold objectForId. simpl. apply lookup_insert_eq.
      * replace (_next rg + Z.of_nat (S i)) with (_next rg + 1 + Z.of_nat i)
          by lia.
        by apply Hnew.
    + intros id Hid. rewrite Hold by lia.
      unfold objectForId. simpl. apply lookup_insert_ne. lia.
Qed.

Lemma freeReset_freeLengths w :
  freeReset w -> exists lens, freeLengths w = Some lens.
Proof.
  unfold freeReset, freeLengths. generalize (_free (pool w)).
  induction 1 as [ | r free (rg & Hr & _) _ [lens IH] ].
  - by exists [].
  - exists (rangeLength rg :: lens).
    rewrite mapM_Some in *. constructor; [ by rewrite Hr | done ].
Qed.

(** The range [getContinuousRange] hands out has its cursor at [_start]
    and room for [num] ids. *)
Lemma getContinuousRange_fresh_cursor w num r w1 :
  freeReset w ->
  getContinuousRange num w = Some (Some r, w1) ->
  exists rg, ranges w1 !! r = Some rg /\ _next rg = _start rg /\
             num <= rangeLength rg.
Proof.
  intros Hreset Hget.
  destruct (freeReset_freeLengths _ Hreset) as [lens Hlens].
  destruct (decide (Forall (fun L => L < num) lens)) as [Hall | Hno].
  - rewrite (getContinuousRange_miss _ _ _ Hlens (bestFit_none _ _ Hall)) in Hget.
    destruct (_ >? _); simplify_eq/=.
    eexists. split; [ by rewrite lookup_app_r, Nat.sub_diag | ].
    unfold rangeLength. simpl. split; [ done | lia ].
  - apply not_Forall_Exists in Hno; [ | apply _ ].
    assert (Hex : Exists (fun L => num <= L) lens).
    { eapply Exists_impl; [ exact Hno | ]. simpl. intros; lia. }
    destruct (bestFit_some _ _ Hex) as (k & L & Hbest & Hk & HL & _).
    destruct (freeLengths_lookup _ _ _ _ Hlens Hk) as (r' & rg & Hr & Hrg & Hlen).
    rewrite (getContinuousRange_hit _ _ _ _ Hlens Hbest), Hr in Hget.
    simplify_eq/=. exists rg. split; [ done | ]. split; [ | lia ].
    unfold freeReset in Hreset. rewrite Forall_forall in Hreset.
    destruct (Hreset r (list_elem_of_lookup_2 _ _ _ Hr)) as (rg' & Hrg' & Hnext).
    by simplify_eq.
Qed.

Lemma getContinuousRange_succeeds w num :
  freeReset w ->
  num <= 65536 - _unusedRangeStart (pool w) ->
  exists r w1, getContinuousRange num w = Some (Some r, w1).
Proof.
  intros Hreset Hroom.
  destruct (freeReset_freeLengths _ Hreset) as [lens Hlens].
  destruct (decide (Forall (fun L => L < num) lens)) as [Hall | Hno].
  - rewrite (getContinuousRange_miss _ _ _ Hlens (bestFit_none _ _ Hall)).
    destruct (Z.gtb_spec (_unusedRangeStart (pool w) + num) 65536); [ lia | ].
    by eexists _, _.
  - apply not_Forall_Exists in Hno; [ | apply _ ].
    assert (Hex : Exists (fun L => num <= L) lens).
    { eapply Exists_impl; [ exact Hno | ]. simpl. intros; lia. }
    destruct (bestFit_some _ _ Hex) as (k & L & Hbest & Hk & HL & _).
    destruct (freeLengths_lookup _ _ _ _ Hlens Hk) as (r' & rg & Hr & Hrg & Hlen).
    rewrite (getContinuousRange_hit _ _ _ _ Hlens Hbest), Hr.
    by eexists _, _.
Qed.

(** C3, for pools whose free ranges all have their cursor at [_start]
    ([freeReset]: so it is in a new pool, and so it stays until [nextId]
    is called on a range that is on the free list). In such a pool a
    request for [n] ids that fits the unused tail succeeds, and [n] calls
    of [nextId] on the range it returned give [n] distinct ids, all in
    [[_start, _end)], each mapped to the object of its call. *)
Theorem getContinuousRange_then_nextIds w (objs : list Obj) :
  freeReset w ->
  (Z.of_nat (length objs) <= 65536 - _unusedRangeStart (pool w) ->
   exists r w1,
     getContinuousRange (Z.of_nat (length objs)) w = Some (Some r, w1)) /\
  (forall r w1,
     getContinuousRange (Z.of_nat (length objs)) w = Some (Some r, w1) ->
     exists rg ids w2,
       ranges w1 !! r = Some rg /\
       nextIds r objs w1 = Some (ids, w2) /\
       length ids = length objs /\
       NoDup ids /\
       Forall (fun id => _start rg <= id < _end rg) ids /\
       Forall2 (fun id obj => objectForId id w2 = Some obj) ids objs).
Proof.
  intros Hreset. split; [ by apply getContinuousRange_succeeds | ].
  intros r w1 Hget.
  destruct (getContinuousRange_fresh_cursor _ _ _ _ Hreset Hget)
    as (rg & Hrg & Hnext & Hroom).
  destruct (nextIds_spec objs _ _ _ Hrg) as (w2 & Hrun & _ & Hnew & _).
  exists rg, (seqZ (_next rg) (Z.of_nat (length objs))), w2.
  split; [ done | ]. split; [ done | ].
  split; [ by rewrite length_seqZ, Nat2Z.id | ].
  split; [ apply NoDup_seqZ | ].
  split.
  - apply Forall_forall. intros id Hid. apply elem_of_seqZ in Hid.
    unfold rangeLength in Hroom. lia.
  - apply Forall2_same_length_lookup_2.
    { by rewrite length_seqZ, Nat2Z.id. }
    intros i id obj Hid Hobj.
    apply lookup_seqZ in Hid as [-> _]. by apply Hnew.
Qed.

(** C10. [nextId] never compares its cursor with [_end]: a single call
    returns [_next] and maps it to the object whatever the table held
    there, and on a range of length [b] with its cursor at [_start] the
    calls after the first [b] return [_end], [_end + 1], ... and leave
    those ids mapped to their objects. *)
Theorem nextId_past_end w r rg :
  ranges w !! r = Some rg ->
  (forall obj, exists w',
     nextId r obj w = Some (_next rg, w') /\
     objectForId (_next rg) w' = Some obj /\
     ranges w' !! r = Some (mkRange (_start rg) (_next rg + 1) (_end rg))) /\
  (forall (objs extra : list Obj),
     _next rg = _start rg ->
     Z.of_nat (length objs) = rangeLength rg ->
     exists w2,
       nextIds r (objs ++ extra) w =
         Some (seqZ (_start rg) (Z.of_nat (length objs)) ++
               seqZ (_end rg) (Z.of_nat (length extra)), w2) /\
       forall (j : nat) obj, extra !! j = Some obj ->
                             objectForId (_end rg + Z.of_nat j) w2 = Some obj).
Proof.
  intros Hr. split.
  - intros obj. eexists. split; [ by apply nextId_Some | ].
    split; [ apply lookup_insert_eq | ].
    simpl. apply list_lookup_insert_eq. by eapply lookup_lt_Some.
  - intros objs extra Hnext Hlen.
    destruct (nextIds_spec (objs ++ extra) _ _ _ Hr) as (w2 & Hrun & _ & Hnew & _).
    exists w2. unfold rangeLength in Hlen. split.
    + rewrite Hrun, length_app, Nat2Z.inj_add, Hnext. do 2 f_equal.
      rewrite seqZ_app by lia. do 2 f_equal. lia.
    + intros j obj Hj.
      replace (_end rg + Z.of_nat j)
        with (_next rg + Z.of_nat (length objs + j)) by lia.
      apply Hnew. by rewrite lookup_app_r, Nat.add_comm, Nat.add_sub by lia.
Qed.

(** *** recycle and objectForId *)

Lemma lookup_deleted (l : list Z) : forall (m : gmap Z Obj) id,
  foldl (fun m i => delete i m) m l !! id
  = if decide (id ∈ l) then None else m !! id.
Proof.
  induction l as [ | i l IH ]; intros m id; simpl.
  - destruct (decide (id ∈ [])) as [Hin | ]; [ | done ].
    by apply not_elem_of_nil in Hin.
  - rewrite IH.
    destruct (decide (id ∈ l)) as [Hin | Hout],
             (decide (id ∈ i :: l)) as [Hin' | Hout']; try done.
    + exfalso. apply Hout'. by right.
    + apply elem_of_cons in Hin' as [-> | ?]; [ | done ].
      apply lookup_delete_eq.
    + apply lookup_delete_ne. intros ->. apply Hout'. left.
Qed.

Lemma recycle_Some w r rg :
  ranges w !! r = Some rg ->
  recycle r w =
    Some (mkWorld
            (mkPool (foldl (fun m i => delete i m) (_objects (pool w))
                           (seqZ (_start rg) (_next rg - _start rg)))
                    (_unusedRangeStart (pool w)) (_free (pool w) ++ [r]))
            (<[r := mkRange (_start rg) (_start rg) (_end rg)]> (ranges w))
            (console w)).
Proof. intros H. unfold recycle. by rewrite H. Qed.

Lemma recycle_clears w r rg :
  ranges w !! r = Some rg ->
  exists w',
    recycle r w = Some w' /\
    (forall id, _start rg <= id < _next rg -> objectForId id w' = None) /\
    (forall id, ~ (_start rg <= id < _next rg) ->
                objectForId id w' = objectForId id w) /\
    ranges w' !! r = Some (mkRange (_start rg) (_start rg) (_end rg)) /\
    _free (pool w') = _free (pool w) ++ [r].
Proof.
  intros Hr. eexists. split; [ by apply recycle_Some | ].
  unfold objectForId. simpl. repeat split.
  - intros id Hid. rewrite lookup_deleted, decide_True; [ done | ].
    apply elem_of_seqZ. lia.
  - intros id Hid. rewrite lookup_deleted, decide_False; [ done | ].
    rewrite elem_of_seqZ. lia.
  - apply list_lookup_insert_eq. by eapply lookup_lt_Some.
Qed.

(** What a call of [getContinuousRange] can do to the table and the
    store: the table stays, and the store stays or gets one range with
    its cursor at [_start]. *)
Lemma getContinuousRange_effect w num res w' :
  getContinuousRange num w = Some (res, w') ->
  _objects (pool w') = _objects (pool w) /\
  (ranges w' = ranges w \/
   exists a b, ranges w' = ranges w ++ [mkRange a a b]).
Proof.
  unfold getContinuousRange. intros H.
  destruct (freeLengths w) as [lens | ]; simplify_eq/=.
  destruct (negb _).
  - destruct (_ !! _); simplify_eq/=. auto.
  - destruct (_ >? _); simplify_eq/=; eauto.
Qed.

Lemma tracked_newPool : tracked (newPool : World Obj, []).
Proof.
  repeat split; simpl.
  - intros r rg H. by rewrite lookup_nil in H.
  - intros r id H. by apply not_elem_of_nil in H.
  - intros id obj H. unfold objectForId in H. simpl in H.
    by rewrite lookup_empty in H.
Qed.

Lemma tracked_step (c : call Obj) s s' :
  tracked s -> step c s = Some s' -> tracked s'.
Proof.
  destruct s as [w held]. intros (Hcur & Hheld & Htab) Hstep.
  simpl in Hcur, Hheld, Htab.
  destruct c as [ num | r0 obj | r0 ]; simpl in Hstep.
  - destruct (getContinuousRange num w) as [[res w'] | ] eqn:Hget;
      simplify_eq/=.
    destruct (getContinuousRange_effect _ _ _ _ Hget) as [Hobj [Hsame | (a & b & Hnew)]].
    + unfold tracked, objectForId; simpl. rewrite Hobj, Hsame. done.
    + unfold tracked, objectForId; simpl. rewrite Hobj, Hnew.
      split; [ | split; [ | done ] ].
      * intros r rg [? | [_ Hr]]%lookup_app_Some; [ by eapply Hcur | ].
        apply list_lookup_singleton_Some in Hr as [_ <-]. simpl. lia.
      * intros r id Hin. destruct (Hheld _ _ Hin) as (rg & Hr & Hid).
        exists rg. split; [ | done ]. by apply lookup_app_l_Some.
  - destruct (ranges w !! r0) as [rg0 | ] eqn:Hr0;
      [ | by unfold nextId in Hstep; rewrite Hr0 in Hstep ].
    rewrite (nextId_Some _ _ _ _ Hr0) in Hstep. simplify_eq/=.
    pose proof (Hcur _ _ Hr0) as Hle.
    unfold tracked, objectForId; simpl. split; [ | split ].
    + intros r rg [(<- & <- & _) | [_ Hr]]%list_lookup_insert_Some.
      * simpl. lia.
      * by eapply Hcur.
    + intros r id [Heq | Hin]%elem_of_cons.
      * simplify_eq. eexists. split.
        -- apply list_lookup_insert_eq. by eapply lookup_lt_Some.
        -- simpl. lia.
      * destruct (Hheld _ _ Hin) as (rg & Hr & Hid).
        destruct (decide (r = r0)) as [-> | Hne].
        -- simplify_eq. eexists. split.
           ++ apply list_lookup_insert_eq. by eapply lookup_lt_Some.
           ++ simpl. lia.
        -- exists rg. split; [ | done ]. by rewrite list_lookup_insert_ne.
    + intros id o Hid. destruct (decide (id = _next rg0)) as [-> | Hne].
      * exists r0. left.
      * rewrite lookup_insert_ne in Hid by done.
        destruct (Htab _ _ Hid) as [r Hin]. exists r. by right.
  - destruct (ranges w !! r0) as [rg0 | ] eqn:Hr0;
      [ | by unfold recycle in Hstep; rewrite Hr0 in Hstep ].
    rewrite (recycle_Some _ _ _ Hr0) in Hstep. simplify_eq/=.
    unfold tracked, objectForId; simpl. split; [ | split ].
    + intros r rg [(<- & <- & _) | [_ Hr]]%list_lookup_insert_Some.
      * simpl. lia.
      * by eapply Hcur.
    + intros r id [Hp Hin]%list_elem_of_filter. simpl in Hp.
      destruct (Nat.eqb_spec r r0) as [ | Hne ]; [ done | ].
      destruct (Hheld _ _ Hin) as (rg & Hr & Hid).
      exists rg. split; [ | done ]. by rewrite list_lookup_insert_ne.
    + intros id o Hid. rewrite lookup_deleted in Hid.
      destruct (decide (id ∈ _)) as [ | Hout ]; [ done | ].
      destruct (Htab _ _ Hid) as [r Hin]. exists r.
      apply list_elem_of_filter. split; [ | done ]. simpl.
      destruct (Nat.eqb_spec r r0) as [-> | Hne ]; [ | done ].
      destruct (Hheld _ _ Hin) as (rg & Hr & Hrange). simplify_eq.
      exfalso. apply Hout, elem_of_seqZ. lia.
Qed.

Lemma tracked_run (cs : list (call Obj)) : forall s s',
  tracked s -> run cs s = Some s' -> tracked s'.
Proof.
  induction cs as [ | c cs IH ]; intros s s' Hs Hrun; simpl in Hrun.
  - by simplify_eq.
  - destruct (step c s) as [s1 | ] eqn:Hstep; simplify_eq/=.
    eapply IH; [ | exact Hrun ]. by eapply tracked_step.
Qed.

(** C4. After [recycle] of a range, [objectForId] finds nothing at the ids
    between the range's [_start] and the cursor it had, which are the ids
    it had handed out; after any sequence of calls on a new pool an id
    that no range has handed out since that range was last recycled reads
    as absent; and the first range of a new pool starts at 0, where the
    object of its first [nextId] is found. *)
Theorem recycle_clears_objectForId :
  (forall w r rg,
     ranges w !! r = Some rg ->
     exists w', recycle r w = Some w' /\
                forall id, _start rg <= id < _next rg ->
                           objectForId id w' = None) /\
  (forall cs w held r id,
     run cs (newPool, []) = Some (w, held) ->
     (r, id) ∈ held ->
     exists w', recycle r w = Some w' /\ objectForId id w' = None) /\
  (forall cs w held id,
     run cs (newPool, []) = Some (w, held) ->
     (forall r, (r, id) ∉ held) ->
     objectForId id w = None) /\
  (forall num obj,
     0 <= num <= 65536 ->
     exists w1 w2,
       getContinuousRange num newPool = Some (Some 0%nat, w1) /\
       ranges w1 !! 0%nat = Some (mkRange 0 0 num) /\
       nextId 0%nat obj w1 = Some (0, w2) /\
       objectForId 0 w2 = Some obj).
Proof.
  split; [ | split; [ | split ] ].
  - intros w r rg Hr.
    destruct (recycle_clears _ _ _ Hr) as (w' & Hrec & Hclear & _).
    by exists w'.
  - intros cs w held r id Hrun Hin.
    destruct (tracked_run _ _ _ tracked_newPool Hrun) as (_ & Hheld & _).
    destruct (Hheld _ _ Hin) as (rg & Hr & Hid). simpl in Hr.
    destruct (recycle_clears _ _ _ Hr) as (w' & Hrec & Hclear & _).
    exists w'. split; [ done | by apply Hclear ].
  - intros cs w held id Hrun Hnone.
    destruct (tracked_run _ _ _ tracked_newPool Hrun) as (_ & _ & Htab).
    destruct (objectForId id w) as [obj | ] eqn:Hid; [ | done ].
    destruct (Htab _ _ Hid) as [r Hin]. by destruct (Hnone r).
  - intros num obj Hnum.
    assert (Hget : getContinuousRange num (newPool : World Obj)
                   = Some (Some 0%nat,
                           mkWorld (mkPool ∅ num []) [mkRange 0 0 num] [])).
    { rewrite (getContinuousRange_miss newPool num []); [ | done | done ].
      simpl. rewrite Z.add_0_l.
      by destruct (Z.gtb_spec num 65536); [ lia | ]. }
    eexists _, _. split; [ exact Hget | ].
    split; [ done | ]. split; [ done | ].
    apply lookup_insert_eq.
Qed.

(** *** The free list stays reset under correct use

    [freeReset] holds of a new pool and is kept by every call, as long
    as [nextId] is only called on a range that is not on the free list. *)

Lemma freeReset_newPool : freeReset (newPool : World Obj).
Proof. constructor. Qed.

Lemma freeReset_getContinuousRange w num res w' :
  freeReset w -> getContinuousRange num w = Some (res, w') -> freeReset w'.
Proof.
  unfold freeReset, getContinuousRange. intros Hreset H.
  destruct (freeLengths w) as [lens | ]; simplify_eq/=.
  destruct (negb _).
  - destruct (_ !! _); simplify_eq/=.
    rewrite Forall_forall in Hreset. apply Forall_forall.
    intros r Hin. apply Hreset.
    eapply elem_of_sublist; [ exact Hin | apply sublist_delete ].
  - destruct (_ >? _); simplify_eq/=; [ done | ].
    eapply Forall_impl; [ exact Hreset | ].
    intros r (rg & Hr & Hnext). exists rg. split; [ | done ].
    by apply lookup_app_l_Some.
Qed.

Lemma freeReset_recycle w r w' :
  freeReset w -> recycle r w = Some w' -> freeReset w'.
Proof.
  unfold freeReset. intros Hreset H.
  destruct (ranges w !! r) as [rg | ] eqn:Hr;
    [ | by unfold recycle in H; rewrite Hr in H ].
  rewrite (recycle_Some _ _ _ Hr) in H. simplify_eq/=.
  pose proof (lookup_lt_Some _ _ _ Hr).
  apply Forall_app. split.
  - eapply Forall_impl; [ exact Hreset | ].
    intros r' (rg' & Hr' & Hnext). destruct (decide (r' = r)) as [-> | Hne].
    + eexists. split; [ by apply list_lookup_insert_eq | done ].
    + exists rg'. split; [ by rewrite list_lookup_insert_ne | done ].
  - repeat constructor.
    eexists. split; [ by apply list_lookup_insert_eq | done ].
Qed.

Lemma freeReset_nextId w r obj id w' :
  freeReset w -> r ∉ _free (pool w) ->
  nextId r obj w = Some (id, w') -> freeReset w'.
Proof.
  unfold freeReset. intros Hreset Hlive H.
  destruct (ranges w !! r) as [rg | ] eqn:Hr;
    [ | by unfold nextId in H; rewrite Hr in H ].
  rewrite (nextId_Some _ _ _ _ Hr) in H. simplify_eq/=.
  rewrite Forall_forall in Hreset. apply Forall_forall.
  intros r' Hin. destruct (Hreset _ Hin) as (rg' & Hr' & Hnext).
  exists rg'. split; [ | done ].
  rewrite list_lookup_insert_ne; [ done | ]. by intros ->.
Qed.

(** *** No call gets stuck on references of the store

    [None] stands for a reference outside the store. The free list only
    ever holds references of the store, so [getContinuousRange] always
    returns, and so do [nextId] and [recycle] on a range of the store. *)

Lemma freeInStore_freeLengths w :
  freeInStore w -> exists lens, freeLengths w = Some lens.
Proof.
  unfold freeInStore, freeLengths. generalize (_free (pool w)).
  induction 1 as [ | r free Hr _ [lens IH] ].
  - by exists [].
  - destruct (lookup_lt_is_Some_2 _ _ Hr) as [rg Hrg].
    exists (rangeLength rg :: lens).
    rewrite mapM_Some in *. constructor; [ by rewrite Hrg | done ].
Qed.

Lemma getContinuousRange_returns w num :
  freeInStore w ->
  exists res w', getContinuousRange num w = Some (res, w') /\ freeInStore w'.
Proof.
  intros Hfree. destruct (freeInStore_freeLengths _ Hfree) as [lens Hlens].
  unfold freeInStore in *.
  destruct (decide (Forall (fun L => L < num) lens)) as [Hall | Hno].
  - rewrite (getContinuousRange_miss _ _ _ Hlens (bestFit_none _ _ Hall)).
    destruct (_ >? _); eexists _, _; (split; [ done | ]); simpl; [ done | ].
    eapply Forall_impl; [ exact Hfree | ].
    simpl. intros r Hr. rewrite length_app. simpl. lia.
  - apply not_Forall_Exists in Hno; [ | apply _ ].
    assert (Hex : Exists (fun L => num <= L) lens).
    { eapply Exists_impl; [ exact Hno | ]. simpl. intros; lia. }
    destruct (bestFit_some _ _ Hex) as (k & L & Hbest & Hk & _).
    destruct (freeLengths_lookup _ _ _ _ Hlens Hk) as (r & rg & Hr & _).
    rewrite (getContinuousRange_hit _ _ _ _ Hlens Hbest), Hr.
    eexists _, _. split; [ done | ]. simpl.
    rewrite Forall_forall in Hfree. apply Forall_forall.
    intros r' Hin. apply Hfree.
    eapply elem_of_sublist; [ exact Hin | apply sublist_delete ].
Qed.

Lemma step_returns c w held :
  freeInStore w -> callInStore c w ->
  exists s', step c (w, held) = Some s' /\ freeInStore s'.1.
Proof.
  intros Hfree Hcall. destruct c as [ num | r obj | r ]; simpl in *.
  - destruct (getContinuousRange_returns w num Hfree) as (res & w' & -> & Hfree').
    by eexists.
  - destruct (lookup_lt_is_Some_2 _ _ Hcall) as [rg Hrg].
    rewrite (nextId_Some _ _ _ _ Hrg). eexists. split; [ done | ].
    unfold freeInStore in *. simpl. by rewrite length_insert.
  - destruct (lookup_lt_is_Some_2 _ _ Hcall) as [rg Hrg].
    rewrite (recycle_Some _ _ _ Hrg). eexists. split; [ done | ].
    unfold freeInStore in *. simpl. rewrite length_insert.
    apply Forall_app. split; [ done | by repeat constructor ].
Qed.

End WithObj.

(** *** The theorems at concrete pools *)

(** [getContinuousRange_best_fit] on the free list 5, 10, 3 and a request
    for 4. *)
Lemma getContinuousRange_best_fit_witness :
  exists (i : nat) r L,
    getContinuousRange 4 (@exampleFree string) =
      Some (Some r,
            mkWorld (mkPool ∅ 18 (delete i [0; 1; 2]%nat))
                    [mkRange 0 0 5; mkRange 5 5 15; mkRange 15 15 18] []) /\
    [0; 1; 2]%nat !! i = Some r /\ [5; 10; 3] !! i = Some L /\ 4 <= L /\
    forall (j : nat) L', [5; 10; 3] !! j = Some L' -> 4 <= L' ->
                         L <= L' /\ (L' = L -> (i <= j)%nat).
Proof.
  apply (proj1 (proj1 getContinuousRange_best_fit
                  (@exampleFree string) 4 [5; 10; 3] eq_refl)).
  constructor. lia.
Defined.

Lemma exampleFree_freeReset : freeReset (@exampleFree string).
Proof. repeat constructor; eexists; split; reflexivity. Qed.

(** [getContinuousRange_then_nextIds] for four objects on the same pool. *)
Lemma getContinuousRange_then_nextIds_witness :
  exists rg ids w2,
    [mkRange 0 0 5; mkRange 5 5 15; mkRange 15 15 18] !! 0%nat = Some rg /\
    nextIds 0%nat ["a"; "b"; "c"; "d"]%string
      (mkWorld (mkPool ∅ 18 [1; 2]%nat)
               [mkRange 0 0 5; mkRange 5 5 15; mkRange 15 15 18] [])
      = Some (ids, w2) /\
    length ids = 4%nat /\
    NoDup ids /\
    Forall (fun id => _start rg <= id < _end rg) ids /\
    Forall2 (fun id obj => objectForId id w2 = Some obj) ids
            ["a"; "b"; "c"; "d"]%string.
Proof.
  exact (proj2 (getContinuousRange_then_nextIds (@exampleFree string)
                  ["a"; "b"; "c"; "d"]%string exampleFree_freeReset)
               0%nat _ eq_refl).
Defined.

(** The claim C3 as stated, for every pool, fails once [nextId] has been
    called on a released range: [recycle] resets the cursor, the call
    moves it again, and [getContinuousRange] hands the range out as it
    is. From a new pool, after [getContinuousRange(2)], [recycle] of the
    range and one [nextId] on it, a request for two ids fits, returns the
    range [[0, 2)] with its cursor at 1, and two calls of [nextId] give
    the ids 1 and 2. *)
Lemma getContinuousRange_reuses_moved_cursor :
  exists w held w1 w2,
    run [GetContinuousRange 2; Recycle 0%nat; NextId 0%nat "x"%string]
        (newPool, []) = Some (w, held) /\
    2 <= 65536 - _unusedRangeStart (pool w) /\
    getContinuousRange 2 w = Some (Some 0%nat, w1) /\
    ranges w1 !! 0%nat = Some (mkRange 0 1 2) /\
    nextIds 0%nat ["a"; "b"]%string w1 = Some ([1; 2], w2) /\
    ~ Forall (fun id => 0 <= id < 2) [1; 2].
Proof.
  do 4 eexists. repeat split; try (vm_compute; reflexivity).
  - vm_compute. discriminate.
  - intros H. apply Forall_cons in H as [_ H].
    apply Forall_cons in H as [[_ H] _]. lia.
Qed.

(** [getContinuousRange_tail] on it, for a request of ten ids. *)
Lemma getContinuousRange_tail_witness :
  getContinuousRange 10 exampleFull =
    Some (None,
          mkWorld (mkPool ∅ 65530 []) [mkRange 0 0 65530]
                  ["not enough free object ids."%string]).
Proof.
  apply (proj1 (getContinuousRange_tail exampleFull 10 [] eq_refl
                  (Forall_nil_2 _))).
  simpl. lia.
Defined.

(** [nextId_past_end]: the third call on the first range returns 2 and
    replaces ["b"]. *)
Lemma nextId_past_end_witness :
  objectForId 2 exampleNeighbours = Some "b"%string /\
  exists w2,
    nextIds 0%nat (["a0"%string; "a1"%string] ++ ["a2"%string])
            exampleNeighbours =
      Some (seqZ 0 2 ++ seqZ 2 1, w2) /\
    forall (j : nat) obj, ["a2"%string] !! j = Some obj ->
                          objectForId (2 + Z.of_nat j) w2 = Some obj.
Proof.
  split; [ reflexivity | ].
  exact (proj2 (nextId_past_end exampleNeighbours 0%nat (mkRange 0 0 2) eq_refl)
               ["a0"; "a1"]%string ["a2"%string] eq_refl eq_refl).
Defined.

(** [recycle_clears_objectForId]: a range gives out ids 0 and 1 and is
    recycled; id 1 is then absent. *)
Lemma recycle_clears_objectForId_witness :
  exists w',
    recycle 0%nat
      (mkWorld (mkPool {[ 0 := "x"%string; 1 := "y"%string ]} 2 [])
               [mkRange 0 2 2] [])
      = Some w' /\
    objectForId 1 w' = None.
Proof.
  apply (proj1 (proj2 recycle_clears_objectForId)
           [GetContinuousRange 2; NextId 0%nat "x"%string;
            NextId 0%nat "y"%string]
           _ [(0%nat, 1); (0%nat, 0)] 0%nat 1).
  - vm_compute. reflexivity.
  - left.
Defined.

End IdPoolFacts.

(** ** The vertex-array partitioner *)
Module MeshGeomFacts.
Import MeshGeom.



End MeshGeomFacts.

(** ** Geometry containers and symmetry *)
Module BaseGeomFacts.
Import Floats.PrimFloat.
Import BaseGeom.

Section Scene.
Context {Transform Vec3 Shader Camera Atom VertArray Axes Intervals Num : Type}.
Variable chain : VertArray -> string.
Variable vaUpdateProjectionIntervals :
  VertArray -> Axes -> Intervals -> option Transform -> Intervals.
Variable vaUpdateSquaredSphereRadius :
  VertArray -> Vec3 -> Num -> option Transform -> Num.
Variable pos : Atom -> Vec3.
Variable transformMat4 : Vec3 -> Transform -> Vec3.

Abbreviation Geom := (@BaseGeom.t Transform Atom VertArray).
Abbreviation Event :=
  (@BaseGeom.event Transform Vec3 Shader Camera Atom VertArray).
Abbreviation ShaderCatalog := (@BaseGeom.ShaderCatalog Shader).
Abbreviation _drawVertArrays :=
  (BaseGeom._drawVertArrays (Vec3:=Vec3) (Atom:=Atom)).
Abbreviation _drawSymmetryRelated :=
  (BaseGeom._drawSymmetryRelated (Vec3:=Vec3) (Atom:=Atom) chain).
Abbreviation draw := (BaseGeom.draw (Vec3:=Vec3) (Atom:=Atom) chain).
Abbreviation symmetryDraws :=
  (BaseGeom.symmetryDraws (Transform:=Transform) (Vec3:=Vec3)
     (Shader:=Shader) (Camera:=Camera) (Atom:=Atom) (VertArray:=VertArray)).
Abbreviation drawnVertArray :=
  (BaseGeom.drawnVertArray (Transform:=Transform) (Vec3:=Vec3)
     (Shader:=Shader) (Camera:=Camera) (Atom:=Atom) (VertArray:=VertArray)).
Abbreviation isConsoleError :=
  (BaseGeom.isConsoleError (Transform:=Transform) (Vec3:=Vec3)
     (Shader:=Shader) (Camera:=Camera) (Atom:=Atom) (VertArray:=VertArray)).
Abbreviation updateProjectionIntervals :=
  (BaseGeom.updateProjectionIntervals (Vec3:=Vec3) (Shader:=Shader)
     (Camera:=Camera) chain vaUpdateProjectionIntervals).
Abbreviation updateSquaredSphereRadius :=
  (BaseGeom.updateSquaredSphereRadius (Shader:=Shader) (Camera:=Camera)
     chain vaUpdateSquaredSphereRadius).
Abbreviation eachCentralAtom :=
  (BaseGeom.eachCentralAtom (Shader:=Shader) (Camera:=Camera)
     (VertArray:=VertArray) pos transformMat4).
Abbreviation eachCentralAtomAsym :=
  (BaseGeom.eachCentralAtomAsym (Transform:=Transform) (Shader:=Shader)
     (Camera:=Camera) (VertArray:=VertArray) pos).
Implicit Types (go : Geom) (cam : Camera) (shader : Shader)
  (vas : list VertArray) (ts : list Transform).

(** *** The segments a generator selects *)

Lemma setTrue_elem chs : forall (set : list string) k,
  k ∈ foldl (fun set c => setTrue c set) set chs <->
  k ∈ set \/ (k ∈ chs /\ k <> "__proto__"%string).
Proof using Type.
  induction chs as [ | c chs IH ]; intros set k; simpl.
  - split; [ by left | ]. intros [H | [H _]]; [ done | ].
    by apply not_elem_of_nil in H.
  - rewrite IH. unfold setTrue.
    destruct (String.eqb_spec c "__proto__") as [-> | Hc].
    + pose proof (elem_of_cons chs k "__proto__"%string). tauto.
    + pose proof (elem_of_cons chs k c). pose proof (elem_of_cons set k c).
      destruct (decide (k = c)) as [-> | Hk]; tauto.
Qed.

(** The selection in terms of the chain names: a segment is taken when
    its chain tag is among the names, unless the tag is ["__proto__"]. *)
Lemma vertArraysInvolving_spec go chs :
  _vertArraysInvolving chain go chs
  = filter (fun va => chain va ∈ chs /\ chain va <> "__proto__"%string)
           (vertArrays go).
Proof using Type.
  unfold _vertArraysInvolving. apply list_filter_iff. intros va.
  unfold isTrue. destruct (String.eqb_spec (chain va) "__proto__") as [-> | Hc].
  - split; [ done | by intros [_ ?] ].
  - cbv iota. rewrite bool_decide_eq_true, setTrue_elem. unfold emptyObject.
    split; [ | by right ]. intros [H | H]; [ | done ].
    by apply not_elem_of_nil in H.
Qed.

Lemma vertArraysInvolving_plain go chs :
  Forall (fun va => chain va <> "__proto__"%string) (vertArrays go) ->
  _vertArraysInvolving chain go chs
  = filter (fun va => chain va ∈ chs) (vertArrays go).
Proof using Type.
  rewrite vertArraysInvolving_spec.
  induction 1 as [ | va vas Hva _ IH ]; [ done | ].
  rewrite !filter_cons, IH.
  destruct (decide (chain va ∈ chs)).
  - by rewrite decide_True by done.
  - by rewrite decide_False by (by intros [? _]).
Qed.

(** A segment tagged ["__proto__"] is selected for no list of names. *)
Lemma vertArraysInvolving_proto go chs va :
  chain va = "__proto__"%string -> va ∉ _vertArraysInvolving chain go chs.
Proof using Type.
  rewrite vertArraysInvolving_spec.
  by intros Hva [[_ ?] _]%list_elem_of_filter.
Qed.

Lemma vertArraysInvolving_chain go chs va :
  va ∈ _vertArraysInvolving chain go chs -> chain va ∈ chs.
Proof using Type.
  rewrite vertArraysInvolving_spec. by intros [[? _] _]%list_elem_of_filter.
Qed.

(** *** Drawing with symmetry generators *)

Lemma drawVertArrays_sym c cam shader vas ts :
  _drawVertArrays c cam shader vas (Some ts)
  = symPrefix c ++ map (fun va => VaDrawSymmetryRelated va cam shader ts) vas.
Proof. by destruct c. Qed.

Lemma symmetryDraws_sym c cam shader vas ts :
  flat_map symmetryDraws (_drawVertArrays c cam shader vas (Some ts))
  = flat_map (fun va => map (pair va) ts) vas.
Proof.
  rewrite drawVertArrays_sym, flat_map_app.
  replace (flat_map symmetryDraws (symPrefix c))
    with (@nil (VertArray * Transform)) by (by destruct c).
  simpl. induction vas as [ | va vas IH ]; simpl; [ done | by rewrite IH ].
Qed.

Lemma length_pairs vas ts :
  length (flat_map (fun va => map (pair va) ts) vas)
  = (length vas * length ts)%nat.
Proof.
  induction vas as [ | va vas IH ]; simpl; [ done | ].
  by rewrite length_app, length_map, IH.
Qed.

Lemma drawVertArrays_sym_vertArray c cam shader vas ts (e : Event) va :
  e ∈ _drawVertArrays c cam shader vas (Some ts) ->
  eventVertArray e = Some va -> va ∈ vas.
Proof.
  rewrite drawVertArrays_sym. intros [Hin | Hin]%elem_of_app Hva.
  - destruct c; simpl in Hin.
    + apply list_elem_of_singleton in Hin as ->. done.
    + by apply not_elem_of_nil in Hin.
  - apply list_elem_of_fmap in Hin as (va' & -> & Hin'). simpl in Hva.
    by simplify_eq.
Qed.

Lemma draw_sym go cam (shaderCatalog : ShaderCatalog) style pass shader a :
  _visible go = true ->
  shaderForStyleAndPass (class go) shaderCatalog style pass = Some shader ->
  isAsym (showRelated go) = false ->
  assembly (structure go) (showRelated go) = Some a ->
  draw go cam shaderCatalog style pass
  = _drawSymmetryRelated go cam shader a.
Proof.
  intros Hvis Hshader Hasym Ha. unfold BaseGeom.draw.
  by rewrite Hvis, Hshader, Hasym, Ha.
Qed.

(** C5, with the shader guard of [draw] and for containers none of whose
    segments carries the chain tag ["__proto__"]. For a visible
    container, a style and pass for which a shader is found, and a
    [showRelated] that names an assembly of the structure: [draw] makes,
    generator by generator, one [drawSymmetryRelated] call with the
    generator's transform list on each segment whose chain the generator
    lists; the (segment, transform) draws these calls stand for number
    the sum over the generators of matching segments times transforms;
    and no call is made on a segment whose chain no generator lists. *)
Theorem draw_symmetry_related go cam (shaderCatalog : ShaderCatalog)
    style pass shader a :
  _visible go = true ->
  shaderForStyleAndPass (class go) shaderCatalog style pass = Some shader ->
  isAsym (showRelated go) = false ->
  assembly (structure go) (showRelated go) = Some a ->
  Forall (fun va => chain va <> "__proto__"%string) (vertArrays go) ->
  let events := draw go cam shaderCatalog style pass in
  events =
    flat_map (fun gen =>
                symPrefix (class go) ++
                map (fun va => VaDrawSymmetryRelated va cam shader (matrices gen))
                    (filter (fun va => chain va ∈ chains gen) (vertArrays go)))
             (generators a) /\
  flat_map symmetryDraws events =
    flat_map (fun gen =>
                flat_map (fun va => map (pair va) (matrices gen))
                         (filter (fun va => chain va ∈ chains gen)
                                 (vertArrays go)))
             (generators a) /\
  length (flat_map symmetryDraws events) = expectedSymmetryDraws chain go a /\
  forall va,
    (forall gen, gen ∈ generators a -> chain va ∉ chains gen) ->
    forall e, e ∈ events -> eventVertArray e <> Some va.
Proof.
  intros Hvis Hshader Hasym Ha Htags events. subst events.
  rewrite (draw_sym _ _ _ _ _ _ _ Hvis Hshader Hasym Ha).
  unfold BaseGeom._drawSymmetryRelated, expectedSymmetryDraws.
  generalize (generators a) as gens. intros gens.
  assert (Hpairs :
    flat_map symmetryDraws
      (flat_map (fun gen =>
         _drawVertArrays (class go) cam shader
           (_vertArraysInvolving chain go (chains gen))
           (Some (matrices gen))) gens)
    = flat_map (fun gen =>
         flat_map (fun va => map (pair va) (matrices gen))
           (filter (fun va => chain va ∈ chains gen) (vertArrays go))) gens).
  { induction gens as [ | gen gens IH ]; simpl; [ done | ].
    by rewrite flat_map_app, symmetryDraws_sym, IH,
         (vertArraysInvolving_plain _ _ Htags). }
  split; [ | split; [ exact Hpairs | split ] ].
  - clear Hpairs. induction gens as [ | gen gens IH ]; simpl; [ done | ].
    by rewrite drawVertArrays_sym, IH, (vertArraysInvolving_plain _ _ Htags).
  - rewrite Hpairs. clear Hpairs.
    induction gens as [ | gen gens IH ]; simpl; [ done | ].
    by rewrite length_app, length_pairs, IH.
  - intros va Hva e Hin Heq.
    apply list_elem_of_In, in_flat_map in Hin as (gen & Hgen & Hin).
    apply list_elem_of_In in Hgen, Hin.
    apply (drawVertArrays_sym_vertArray _ _ _ _ _ _ _ Hin) in Heq.
    apply vertArraysInvolving_chain in Heq.
    by apply (Hva gen Hgen).
Qed.

(** *** Falling back to the asymmetric unit *)

Lemma drawn_plain c cam shader vas :
  omap drawnVertArray (_drawVertArrays c cam shader vas None) = vas /\
  flat_map symmetryDraws (_drawVertArrays c cam shader vas None) = [].
Proof.
  assert (H : forall vas,
    omap drawnVertArray
      (flat_map (fun va => [VaBind va shader; VaDraw va;
                            VaReleaseAttribs va shader] : list Event) vas) = vas /\
    flat_map symmetryDraws
      (flat_map (fun va => [VaBind va shader; VaDraw va;
                            VaReleaseAttribs va shader] : list Event) vas) = []).
  { clear vas. induction vas as [ | va vas [IH1 IH2] ]; [ done | ].
    split; simpl; [ f_equal; exact IH1 | exact IH2 ]. }
  destruct (H vas) as [H1 H2]. destruct c; simpl; split; assumption.
Qed.

(** C7, with the reporting as the code has it. When [showRelated] is not
    ['asym'] and the structure has no assembly of that name, every
    operation does what it does for ['asym']: [draw] draws each segment
    once with no additional transform, the two bounding functions fold
    over every segment with no transform, and [eachCentralAtom] visits
    the central atoms of the asymmetric unit. [draw] logs the missing
    assembly when the container is visible and a shader is found, the
    bounding functions log it when the container is visible, and
    [eachCentralAtom] logs nothing. *)
Theorem missing_assembly_falls_back go cam (shaderCatalog : ShaderCatalog)
    style pass axes intervals center radius :
  isAsym (showRelated go) = false ->
  assembly (structure go) (showRelated go) = None ->
  let asym := setShowRelated (Some "asym"%string) go in
  let report (b : bool) : list Event :=
    if b then [ConsoleError (showRelated go)] else [] in
  let found :=
    match shaderForStyleAndPass (class go) shaderCatalog style pass with
    | Some _ => true
    | None => false
    end in
  (draw go cam shaderCatalog style pass
   = report (_visible go && found) ++ draw asym cam shaderCatalog style pass /\
   forall shader,
     _visible go = true ->
     shaderForStyleAndPass (class go) shaderCatalog style pass = Some shader ->
     draw asym cam shaderCatalog style pass
     = _drawVertArrays (class go) cam shader (vertArrays go) None /\
     omap drawnVertArray (draw asym cam shaderCatalog style pass)
     = vertArrays go /\
     flat_map symmetryDraws (draw asym cam shaderCatalog style pass) = []) /\
  (updateProjectionIntervals go axes intervals
   = ((updateProjectionIntervals asym axes intervals).1, report (_visible go)) /\
   updateProjectionIntervals asym axes intervals
   = (if _visible go
      then foldl (fun acc va => vaUpdateProjectionIntervals va axes acc None)
                 intervals (vertArrays go)
      else intervals, [])) /\
  (updateSquaredSphereRadius go center radius
   = ((updateSquaredSphereRadius asym center radius).1, report (_visible go)) /\
   updateSquaredSphereRadius asym center radius
   = (if _visible go
      then foldl (fun radius va =>
                    vaUpdateSquaredSphereRadius va center radius None)
                 radius (vertArrays go)
      else radius, [])) /\
  eachCentralAtom go = eachCentralAtomAsym (structure go) /\
  Forall (fun e => isConsoleError e = false) (eachCentralAtom go).
Proof.
  intros Hasym Hnone asym report found.
  split; [ | split; [ | split; [ | split ] ] ].
  - split.
    + subst report found. unfold BaseGeom.draw. simpl.
      rewrite Hasym, Hnone.
      destruct (_visible go); [ | done ].
      by destruct (shaderForStyleAndPass _ _ _ _).
    + intros shader Hvis Hshader.
      assert (Hdraw : draw asym cam shaderCatalog style pass
                      = _drawVertArrays (class go) cam shader (vertArrays go) None).
      { unfold BaseGeom.draw. simpl. by rewrite Hvis, Hshader. }
      rewrite Hdraw. split; [ done | apply drawn_plain ].
  - subst report. unfold BaseGeom.updateProjectionIntervals. simpl.
    rewrite Hasym, Hnone. by destruct (_visible go).
  - subst report. unfold BaseGeom.updateSquaredSphereRadius. simpl.
    rewrite Hasym, Hnone. by destruct (_visible go).
  - unfold BaseGeom.eachCentralAtom. by rewrite Hnone.
  - unfold BaseGeom.eachCentralAtom. rewrite Hnone.
    unfold BaseGeom.eachCentralAtomAsym.
    induction (allResidues (structure go)) as [ | res ress IH ]; simpl.
    + constructor.
    + destruct (centralAtom res); [ by constructor | done ].
Qed.

(** *** The bounding sphere under symmetry *)

(** On the generator path [updateSquaredSphereRadius] calls each affected
    vertex array once per transform, and never with the transform: the
    result is the same whatever the transforms are, as long as each
    generator keeps as many of them. *)
Lemma updateSquaredSphereRadius_sym go center radius a :
  _visible go = true ->
  isAsym (showRelated go) = false ->
  assembly (structure go) (showRelated go) = Some a ->
  updateSquaredSphereRadius go center radius
  = (foldl (fun radius gen =>
              foldl (fun radius (_ : Transform) =>
                       foldl (fun radius va =>
                                vaUpdateSquaredSphereRadius va center radius None)
                             radius
                             (_vertArraysInvolving chain go (chains gen)))
                    radius (matrices gen))
           radius (generators a), []).
Proof.
  intros Hvis Hasym Ha. unfold BaseGeom.updateSquaredSphereRadius.
  by rewrite Hvis, Hasym, Ha.
Qed.

End Scene.

(** *** The theorems on the concrete scene *)

(** [draw_symmetry_related] on the mesh container with assembly ["1"]:
    one call, on the segment of chain [A]. *)
Lemma draw_symmetry_related_witness :
  BaseGeom.draw Demo.chain (Demo.geom MeshGeom (Some "1"%string)) tt
                Demo.catalog "cartoon" "normal"
  = [VaDrawSymmetryRelated (Vec3:=Demo.Vec3) (Atom:=Demo.Atom)
       Demo.vaA tt "cartoon"%string [(10, 0, 0)]].
Proof.
  refine (proj1 (draw_symmetry_related (Vec3:=Demo.Vec3) Demo.chain
                   (Demo.geom MeshGeom (Some "1"%string)) tt Demo.catalog
                   "cartoon" "normal" "cartoon"%string Demo.assembly1
                   eq_refl eq_refl eq_refl eq_refl _)).
  repeat constructor; discriminate.
Defined.

(** The claim C5 as stated, without the shader guard, fails on a visible
    line container in the outline pass: one (segment, transform) draw is
    due and [draw] issues nothing. *)
Lemma draw_line_outline_draws_nothing :
  _visible (Demo.geom LineGeom (Some "1"%string)) = true /\
  assembly (structure (Demo.geom LineGeom (Some "1"%string))) (Some "1"%string)
    = Some Demo.assembly1 /\
  expectedSymmetryDraws Demo.chain (Demo.geom LineGeom (Some "1"%string))
                        Demo.assembly1 = 1%nat /\
  BaseGeom.draw (Vec3:=Demo.Vec3) (Atom:=Demo.Atom) Demo.chain
                (Demo.geom LineGeom (Some "1"%string)) tt
                Demo.catalog "lines" "outline" = [].
Proof. repeat split. Qed.

(** [missing_assembly_falls_back] on the mesh container asked for the
    assembly ["2"], which the structure does not have. *)
Lemma missing_assembly_falls_back_witness :
  BaseGeom.draw Demo.chain (Demo.geom MeshGeom (Some "2"%string)) tt
                Demo.catalog "cartoon" "normal"
  = [ConsoleError (Vec3:=Demo.Vec3) (Atom:=Demo.Atom) (Some "2"%string)] ++
    BaseGeom.draw Demo.chain (Demo.geom MeshGeom (Some "asym"%string)) tt
                  Demo.catalog "cartoon" "normal".
Proof.
  exact (proj1 (proj1 (missing_assembly_falls_back (Vec3:=Demo.Vec3)
                         Demo.chain Demo.vaUpdateProjectionIntervals
                         Demo.vaUpdateSquaredSphereRadius
                         Demo.pos Demo.transformMat4
                         (Demo.geom MeshGeom (Some "2"%string)) tt Demo.catalog
                         "cartoon" "normal" tt
                         (Range.new, Range.new, Range.new) (0, 0, 0) 0
                         eq_refl eq_refl))).
Defined.

(** The claim C7 as stated fails for [eachCentralAtom]: with the missing
    assembly ["2"] it calls the callback on the asymmetric unit and logs
    nothing. *)
Lemma eachCentralAtom_reports_nothing :
  assembly (structure (Demo.geom MeshGeom (Some "2"%string))) (Some "2"%string)
    = None /\
  BaseGeom.eachCentralAtom (Shader:=string) (Camera:=unit)
    Demo.pos Demo.transformMat4 (Demo.geom MeshGeom (Some "2"%string))
  = [Callback Demo.atomA (1, 0, 0)] /\
  filter (fun e => isConsoleError e = true)
    (BaseGeom.eachCentralAtom (Shader:=string) (Camera:=unit)
       Demo.pos Demo.transformMat4 (Demo.geom MeshGeom (Some "2"%string)))
  = [].
Proof. repeat split. Qed.

(** C1 on the concrete scene. The generator of assembly ["1"] moves
    chain [A] by (10, 0, 0), which takes its vertex (1, 0, 0) to
    (11, 0, 0), at squared distance 121 from the origin; the generator
    loop with the transform handed on, as [updateProjectionIntervals]
    does, gives 121, and [updateSquaredSphereRadius] gives 1, the squared
    distance of the vertex where it is. *)
Theorem updateSquaredSphereRadius_drops_transform :
  BaseGeom.updateSquaredSphereRadius (Shader:=string) (Camera:=unit)
    (Atom:=Demo.Atom) Demo.chain Demo.vaUpdateSquaredSphereRadius
    (Demo.geom MeshGeom (Some "1"%string)) (0, 0, 0) 0
  = (1, []) /\
  symLoop Demo.chain (Demo.geom MeshGeom (Some "1"%string))
    (generators Demo.assembly1)
    (fun radius va transform =>
       Demo.vaUpdateSquaredSphereRadius va (0, 0, 0) radius (Some transform))
    0
  = 121 /\
  (BaseGeom.updateProjectionIntervals (Shader:=string) (Camera:=unit)
     (Vec3:=Demo.Vec3) (Atom:=Demo.Atom)
     Demo.chain Demo.vaUpdateProjectionIntervals
     (Demo.geom MeshGeom (Some "1"%string)) tt
     (Range.new, Range.new, Range.new)).1.1.1
  = Range.make 11 11.
Proof. repeat split. Qed.

End BaseGeomFacts.

(** * Further properties *)

(** ** The id pool under use within the sizes asked for *)
Module IdPoolInvariants.
Import IdPool.

Section WithObj.
Context {Obj : Type}.
Implicit Types (w : World Obj) (r : ref) (rg : ContinuousIdRange)
  (l : list ContinuousIdRange).

(** *** Tiled stores *)

Lemma tiled_le l : forall a b, tiled a l b -> a <= b.
Proof.
  induction l as [ | rg l IH ]; simpl; intros a b H; [ lia | ].
  destruct H as (<- & Hcur & Hrest). apply IH in Hrest. lia.
Qed.

Lemma tiled_lookup l : forall a b (i : nat) rg,
  tiled a l b -> l !! i = Some rg ->
  a <= _start rg /\ _start rg <= _next rg <= _end rg /\ _end rg <= b.
Proof.
  induction l as [ | rg0 l IH ]; intros a b i rg H Hi; [ done | ].
  destruct H as (<- & Hcur & Hrest). destruct i as [ | i ]; simpl in Hi.
  - simplify_eq. apply tiled_le in Hrest. lia.
  - destruct (IH _ _ _ _ Hrest Hi) as (? & ? & ?). lia.
Qed.

(** Ranges of a tiled store do not overlap: an earlier one ends where a
    later one starts, or before. *)
Lemma tiled_ordered l : forall a b (i j : nat) rgi rgj,
  tiled a l b -> l !! i = Some rgi -> l !! j = Some rgj -> (i < j)%nat ->
  _end rgi <= _start rgj.
Proof.
  induction l as [ | rg0 l IH ]; intros a b i j rgi rgj H Hi Hj Hlt; [ done | ].
  destruct H as (<- & Hcur & Hrest).
  destruct j as [ | j ]; [ lia | ]. simpl in Hj.
  destruct i as [ | i ]; simpl in Hi.
  - simplify_eq. by destruct (tiled_lookup _ _ _ _ _ Hrest Hj).
  - eapply IH; eauto. lia.
Qed.

Lemma tiled_disjoint l a b (i j : nat) rgi rgj id :
  tiled a l b -> l !! i = Some rgi -> l !! j = Some rgj ->
  _start rgi <= id < _end rgi -> _start rgj <= id < _end rgj -> i = j.
Proof.
  intros H Hi Hj Hidi Hidj.
  destruct (Nat.lt_trichotomy i j) as [Hlt | [-> | Hlt]]; [ | done | ].
  - pose proof (tiled_ordered _ _ _ _ _ _ _ H Hi Hj Hlt). lia.
  - pose proof (tiled_ordered _ _ _ _ _ _ _ H Hj Hi Hlt). lia.
Qed.

Lemma tiled_insert l : forall a b (i : nat) rg n,
  tiled a l b -> l !! i = Some rg -> _start rg <= n <= _end rg ->
  tiled a (<[i := mkRange (_start rg) n (_end rg)]> l) b.
Proof.
  induction l as [ | rg0 l IH ]; intros a b i rg n H Hi Hn; [ done | ].
  destruct H as (<- & Hcur & Hrest). destruct i as [ | i ]; simpl in Hi.
  - simplify_eq. simpl. done.
  - simpl. split; [ done | ]. split; [ done | ]. by apply IH.
Qed.

Lemma tiled_snoc l : forall a b c,
  tiled a l b -> b <= c -> tiled a (l ++ [mkRange b b c]) c.
Proof.
  induction l as [ | rg0 l IH ]; simpl; intros a b c H Hle.
  - subst. repeat split; lia.
  - destruct H as (<- & Hcur & Hrest). split; [ done | ].
    split; [ done | ]. by apply IH.
Qed.

(** *** The invariant *)

Lemma getContinuousRange_cases w num res w' :
  getContinuousRange num w = Some (res, w') ->
  _objects (pool w') = _objects (pool w) /\
  ((ranges w' = ranges w /\
    _unusedRangeStart (pool w') = _unusedRangeStart (pool w)) \/
   (ranges w' = ranges w ++ [mkRange (_unusedRangeStart (pool w))
                                     (_unusedRangeStart (pool w))
                                     (_unusedRangeStart (pool w) + num)] /\
    _unusedRangeStart (pool w') = _unusedRangeStart (pool w) + num /\
    _unusedRangeStart (pool w) + num <= 65536)).
Proof.
  unfold getContinuousRange. intros H.
  destruct (freeLengths w) as [lens | ]; simplify_eq/=.
  destruct (negb _).
  - destruct (_ !! _); simplify_eq/=. auto.
  - destruct (Z.gtb_spec (_unusedRangeStart (pool w) + num) 65536);
      simplify_eq/=; auto.
Qed.

Lemma ownedSound_newPool : ownedSound (newPool : World Obj, []).
Proof.
  repeat split; simpl; try lia.
  - intros r id obj H. by apply not_elem_of_nil in H.
  - constructor.
Qed.

Lemma NoDup_map_filter {A B} (f : A -> B) (P : A -> bool) (xs : list A) :
  NoDup (map f xs) -> NoDup (map f (filter P xs)).
Proof.
  induction xs as [ | x xs IH ]; simpl; [ done | ].
  intros [Hx Hxs]%NoDup_cons. rewrite filter_cons.
  destruct (decide (P x)); [ | by apply IH ].
  simpl. apply NoDup_cons. split; [ | by apply IH ].
  intros Hin. apply Hx.
  apply list_elem_of_In, in_map_iff in Hin as (y & Hy & Hin).
  apply list_elem_of_In, list_elem_of_filter in Hin as [_ Hin].
  rewrite <- Hy. apply list_elem_of_In, in_map. by apply list_elem_of_In.
Qed.

Lemma ownedSound_step (c : call Obj) s s' :
  permitted c s.1 -> stepOwned c s = Some s' -> ownedSound s -> ownedSound s'.
Proof.
  destruct s as [w owned]. intros Hperm Hstep (Htiled & Hmark & Hown & Hnodup).
  simpl in Hperm, Htiled, Hmark, Hown, Hnodup.
  destruct c as [ num | r0 obj | r0 ]; simpl in Hstep, Hperm.
  - destruct (getContinuousRange num w) as [[res w'] | ] eqn:Hget;
      simplify_eq/=.
    destruct (getContinuousRange_cases _ _ _ _ Hget)
      as [Hobj [[Hsame Hhwm] | (Hnew & Hhwm & Hfit)]];
      unfold ownedSound, objectForId; simpl; rewrite Hobj, Hhwm.
    + by rewrite Hsame.
    + rewrite Hnew. split; [ apply tiled_snoc; [ done | lia ] | ].
      split; [ done | ]. split; [ | done ].
      intros r id o Hin. destruct (Hown _ _ _ Hin) as (rg & Hr & Hid & Hobj').
      exists rg. split; [ by apply lookup_app_l_Some | done ].
  - destruct Hperm as (rg0 & Hr0 & Hroom).
    rewrite (IdPoolFacts.nextId_Some _ _ _ _ Hr0) in Hstep. simplify_eq/=.
    destruct (tiled_lookup _ _ _ _ _ Htiled Hr0) as (_ & Hcur & _).
    assert (Hfresh : forall r id o, (r, id, o) ∈ owned -> id <> _next rg0).
    { intros r id o Hin ->. destruct (Hown _ _ _ Hin) as (rg & Hr & Hid & _).
      destruct (tiled_lookup _ _ _ _ _ Htiled Hr) as (_ & Hcur' & _).
      assert (r = r0) as ->.
      { eapply (tiled_disjoint _ _ _ _ _ _ _ (_next rg0) Htiled Hr Hr0); lia. }
      simplify_eq. lia. }
    unfold ownedSound, objectForId; simpl. split; [ | split; [ done | split ] ].
    + apply tiled_insert; [ done | done | lia ].
    + intros r id o [Heq | Hin]%elem_of_cons.
      * simplify_eq. eexists. split.
        -- apply list_lookup_insert_eq. by eapply lookup_lt_Some.
        -- simpl. split; [ lia | apply lookup_insert_eq ].
      * pose proof (Hfresh _ _ _ Hin) as Hne.
        destruct (Hown _ _ _ Hin) as (rg & Hr & Hid & Hobj).
        unfold objectForId in Hobj. rewrite lookup_insert_ne by done.
        destruct (decide (r = r0)) as [-> | Hr0'].
        -- simplify_eq. eexists. split.
           ++ apply list_lookup_insert_eq. by eapply lookup_lt_Some.
           ++ simpl. split; [ lia | done ].
        -- exists rg. by rewrite list_lookup_insert_ne.
    + simpl. apply NoDup_cons. split; [ | done ].
      intros Hin. apply list_elem_of_In, in_map_iff in Hin as ([[r id] o] & Heq & Hin).
      simpl in Heq. subst id. apply list_elem_of_In in Hin.
      by apply (Hfresh _ _ _ Hin).
  - destruct (ranges w !! r0) as [rg0 | ] eqn:Hr0;
      [ | by unfold recycle in Hstep; rewrite Hr0 in Hstep ].
    rewrite (IdPoolFacts.recycle_Some _ _ _ Hr0) in Hstep. simplify_eq/=.
    destruct (tiled_lookup _ _ _ _ _ Htiled Hr0) as (_ & Hcur & _).
    unfold ownedSound, objectForId; simpl. split; [ | split; [ done | split ] ].
    + apply tiled_insert; [ done | done | lia ].
    + intros r id o [Hp Hin]%list_elem_of_filter. simpl in Hp.
      destruct (Nat.eqb_spec r r0) as [ | Hne ]; [ done | ].
      destruct (Hown _ _ _ Hin) as (rg & Hr & Hid & Hobj).
      exists rg. split; [ by rewrite list_lookup_insert_ne | ].
      split; [ done | ].
      rewrite IdPoolFacts.lookup_deleted.
      destruct (decide (id ∈ _)) as [Hdel | ]; [ | done ].
      apply elem_of_seqZ in Hdel.
      destruct (tiled_lookup _ _ _ _ _ Htiled Hr) as (_ & Hcur' & _).
      exfalso. apply Hne.
      eapply (tiled_disjoint _ _ _ _ _ _ _ id Htiled Hr Hr0); lia.
    + by apply NoDup_map_filter.
Qed.

Lemma ownedSound_reaches (cs : list (call Obj)) s s' :
  reaches s cs s' -> ownedSound s -> ownedSound s'.
Proof.
  induction 1 as [ | c cs s s1 s2 Hperm Hstep _ IH ]; [ done | ].
  intros Hs. apply IH. by eapply ownedSound_step.
Qed.

Lemma NoDup_map_eq {A B} (f : A -> B) (xs : list A) x y :
  NoDup (map f xs) -> x ∈ xs -> y ∈ xs -> f x = f y -> x = y.
Proof.
  induction xs as [ | z xs IH ]; simpl; [ by intros _ ?%not_elem_of_nil | ].
  intros [Hz Hxs]%NoDup_cons [-> | Hx]%elem_of_cons [-> | Hy]%elem_of_cons Heq.
  - done.
  - exfalso. apply Hz. rewrite Heq.
    apply list_elem_of_In, in_map. by apply list_elem_of_In.
  - exfalso. apply Hz. rewrite <- Heq.
    apply list_elem_of_In, in_map. by apply list_elem_of_In.
  - by apply IH.
Qed.

(** X3. From a new pool, when every request is non-negative and no range is
    asked for more ids than its length, the ranges of the store follow
    one another from 0 to the high-water mark: each lies within
    [[0, 65536]], has its cursor between its ends, and no id belongs to
    two ranges. *)
Theorem pool_ranges_tile (cs : list (call Obj)) w owned :
  reaches (newPool, []) cs (w, owned) ->
  tiled 0 (ranges w) (_unusedRangeStart (pool w)) /\
  0 <= _unusedRangeStart (pool w) <= 65536 /\
  (forall r rg, ranges w !! r = Some rg ->
     0 <= _start rg /\ _start rg <= _next rg <= _end rg /\ _end rg <= 65536) /\
  (forall r1 r2 rg1 rg2 id,
     ranges w !! r1 = Some rg1 -> ranges w !! r2 = Some rg2 ->
     _start rg1 <= id < _end rg1 -> _start rg2 <= id < _end rg2 -> r1 = r2).
Proof.
  intros Hreach.
  destruct (ownedSound_reaches _ _ _ Hreach ownedSound_newPool)
    as (Htiled & Hmark & _). simpl in Htiled, Hmark.
  split; [ done | ]. split; [ apply tiled_le in Htiled; lia | ]. split.
  - intros r rg Hr. destruct (tiled_lookup _ _ _ _ _ Htiled Hr) as (? & ? & ?).
    lia.
  - intros r1 r2 rg1 rg2 id Hr1 Hr2 Hid1 Hid2.
    by eapply (tiled_disjoint _ _ _ _ _ _ _ id Htiled Hr1 Hr2).
Qed.

(** X4. Under the same use, an id that a range has handed out and that has
    not been released since is a 16-bit id, [objectForId] returns the
    object it was handed out for, and no other range holds it. *)
Theorem pool_ids_owned_once (cs : list (call Obj)) w owned :
  reaches (newPool, []) cs (w, owned) ->
  (forall r id obj, (r, id, obj) ∈ owned ->
     objectForId id w = Some obj /\ 0 <= id < 65536) /\
  (forall r1 r2 id obj1 obj2,
     (r1, id, obj1) ∈ owned -> (r2, id, obj2) ∈ owned ->
     r1 = r2 /\ obj1 = obj2).
Proof.
  intros Hreach.
  destruct (ownedSound_reaches _ _ _ Hreach ownedSound_newPool)
    as (Htiled & Hmark & Hown & Hnodup). simpl in *.
  split.
  - intros r id obj Hin. destruct (Hown _ _ _ Hin) as (rg & Hr & Hid & Hobj).
    split; [ done | ].
    destruct (tiled_lookup _ _ _ _ _ Htiled Hr) as (? & ? & ?). lia.
  - intros r1 r2 id obj1 obj2 H1 H2.
    assert (Heq : (r1, id, obj1) = (r2, id, obj2)).
    { by eapply (NoDup_map_eq (fun p : ref * Z * Obj => p.1.2) owned). }
    by simplify_eq.
Qed.

End WithObj.

Lemma exampleCalls_reaches :
  reaches (newPool, []) exampleCalls
          (exampleCallsEnd, [(0%nat, 1, "c"%string); (0%nat, 0, "a"%string)]).
Proof.
  unfold exampleCalls.
  repeat (eapply reaches_cons;
          [ first [ exact I | simpl; lia
                  | eexists; split; [ reflexivity | simpl; lia ] ]
          | reflexivity | ]).
  apply reaches_nil.
Qed.

Lemma pool_ranges_tile_witness :
  tiled 0 [mkRange 0 2 2; mkRange 2 2 5] 5.
Proof.
  exact (proj1 (pool_ranges_tile _ _ _ exampleCalls_reaches)).
Defined.

Lemma pool_ids_owned_once_witness :
  objectForId 1 exampleCallsEnd = Some "c"%string /\ 0 <= 1 < 65536.
Proof.
  apply (proj1 (pool_ids_owned_once _ _ _ exampleCalls_reaches) 0%nat).
  left.
Defined.

End IdPoolInvariants.

(** ** Releasing and reusing id ranges *)
Module IdPoolReuse.
Import IdPool.

Section WithObj.
Context {Obj : Type}.
Implicit Types (w : World Obj) (r : ref) (rg : ContinuousIdRange).

Lemma freeLengths_Forall2 w lens :
  freeLengths w = Some lens <->
  Forall2 (fun r L => rangeLength <$> ranges w !! r = Some L)
          (_free (pool w)) lens.
Proof. unfold freeLengths. apply mapM_Some. Qed.

(** Moving the cursor of a range changes no length in the store. *)
Lemma length_after_cursor (l : list ContinuousIdRange) r rg n r' :
  l !! r = Some rg ->
  rangeLength <$> (<[r := mkRange (_start rg) n (_end rg)]> l) !! r'
  = rangeLength <$> l !! r'.
Proof.
  intros Hr. destruct (decide (r = r')) as [<- | Hne].
  - rewrite list_lookup_insert_eq by (by eapply lookup_lt_Some).
    by rewrite Hr.
  - by rewrite list_lookup_insert_ne.
Qed.

Lemma freeLengths_recycle w r rg lens :
  ranges w !! r = Some rg -> freeLengths w = Some lens ->
  exists w1,
    recycle r w = Some w1 /\
    freeLengths w1 = Some (lens ++ [rangeLength rg]) /\
    _free (pool w1) = _free (pool w) ++ [r] /\
    _unusedRangeStart (pool w1) = _unusedRangeStart (pool w) /\
    console w1 = console w /\
    ranges w1 = <[r := mkRange (_start rg) (_start rg) (_end rg)]> (ranges w).
Proof.
  intros Hr Hlens. eexists. split; [ by apply IdPoolFacts.recycle_Some | ].
  split; [ | done ].
  apply freeLengths_Forall2. simpl. apply freeLengths_Forall2 in Hlens.
  apply Forall2_app.
  - eapply Forall2_impl; [ exact Hlens | ].
    intros r' L HL. simpl. by rewrite (length_after_cursor _ _ _ _ _ Hr).
  - repeat constructor. by rewrite (length_after_cursor _ _ _ _ _ Hr), Hr.
Qed.

(** When every free range that fits sits at a position holding [r], and
    taking any such position off the list leaves [rest], the request
    gets [r] and the free list becomes [rest]. *)
Lemma getContinuousRange_only w num lens r rest :
  freeLengths w = Some lens ->
  Exists (fun L => num <= L) lens ->
  (forall (k : nat) L, lens !! k = Some L -> num <= L ->
     _free (pool w) !! k = Some r /\ delete k (_free (pool w)) = rest) ->
  getContinuousRange num w =
    Some (Some r,
          mkWorld (mkPool (_objects (pool w)) (_unusedRangeStart (pool w)) rest)
                  (ranges w) (console w)).
Proof.
  intros Hlens Hex Honly.
  destruct (IdPoolFacts.bestFit_some _ _ Hex) as (k & L & Hbest & Hk & HL & _).
  destruct (Honly _ _ Hk HL) as [Hr Hdel].
  by rewrite (IdPoolFacts.getContinuousRange_hit _ _ _ _ Hlens Hbest), Hr, Hdel.
Qed.


(** X6. [recycle] does not look whether the range is already free. Recycled
    twice, the range is on the free list twice, and when it is the one
    that fits, the next two requests both get it: two holders then draw
    their ids from the same range. *)
Theorem recycle_twice_shares_range w r rg lens num :
  ranges w !! r = Some rg ->
  freeLengths w = Some lens ->
  Forall (fun L => L < num) lens ->
  num <= rangeLength rg ->
  exists w1 w2 w3 w4,
    recycle r w = Some w1 /\ recycle r w1 = Some w2 /\
    _free (pool w2) = _free (pool w) ++ [r; r] /\
    getContinuousRange num w2 = Some (Some r, w3) /\
    getContinuousRange num w3 = Some (Some r, w4).
Proof.
  intros Hr Hlens Hall Hfit.
  destruct (freeLengths_recycle _ _ _ _ Hr Hlens)
    as (w1 & Hrec1 & Hlens1 & Hfree1 & _ & _ & Hranges1).
  assert (Hr1 : ranges w1 !! r
                = Some (mkRange (_start rg) (_start rg) (_end rg))).
  { rewrite Hranges1. apply list_lookup_insert_eq. by eapply lookup_lt_Some. }
  destruct (freeLengths_recycle _ _ _ _ Hr1 Hlens1)
    as (w2 & Hrec2 & Hlens2 & Hfree2 & _ & _ & Hranges2).
  change (rangeLength (mkRange (_start rg) (_start rg) (_end rg)))
    with (rangeLength rg) in Hlens2.
  assert (Hlen : length (_free (pool w)) = length lens).
  { apply freeLengths_Forall2 in Hlens. by eapply Forall2_length. }
  rewrite Forall_forall in Hall.
  assert (Hlate : forall (k : nat) L, lens !! k = Some L -> num <= L -> False).
  { intros k L Hk HL. apply list_elem_of_lookup_2, Hall in Hk. lia. }
  set (w3 := mkWorld (mkPool (_objects (pool w2)) (_unusedRangeStart (pool w2))
                             (_free (pool w) ++ [r]))
                     (ranges w2) (console w2)).
  assert (Hget2 : getContinuousRange num w2 = Some (Some r, w3)).
  { apply (getContinuousRange_only _ _ _ _ _ Hlens2).
    - apply Exists_app. right. by constructor.
    - intros k L Hk HL. rewrite Hfree2, Hfree1.
      apply IdPoolFacts.lookup_snoc_inv in Hk as [Hk | [-> _]].
      + apply IdPoolFacts.lookup_snoc_inv in Hk as [Hk | [-> _]].
        * by destruct (Hlate _ _ Hk HL).
        * rewrite <- Hlen. split.
          -- rewrite <- app_assoc. by rewrite lookup_app_r, Nat.sub_diag.
          -- rewrite <- app_assoc. simpl. rewrite delete_middle. done.
      + rewrite length_app, <- Hlen. simpl. split.
        * rewrite lookup_app_r by (rewrite length_app; simpl; lia).
          rewrite length_app. simpl.
          by replace (length (_free (pool w)) + 1
                      - (length (_free (pool w)) + 1))%nat with 0%nat by lia.
        * replace (length (_free (pool w)) + 1)%nat
            with (length (_free (pool w) ++ [r])) by (by rewrite length_app).
          rewrite delete_middle. by rewrite app_nil_r. }
  assert (Hlens3 : freeLengths w3 = Some (lens ++ [rangeLength rg])).
  { apply freeLengths_Forall2. subst w3. simpl.
    apply freeLengths_Forall2 in Hlens1. rewrite Hfree1 in Hlens1.
    rewrite Hranges2.
    eapply Forall2_impl; [ exact Hlens1 | ].
    intros r' L HL. simpl. by rewrite (length_after_cursor _ _ _ _ _ Hr1). }
  eexists w1, w2, w3, _. split; [ done | ]. split; [ done | ].
  split; [ by rewrite Hfree2, Hfree1, <- app_assoc | ].
  split; [ done | ].
  apply (getContinuousRange_only _ _ _ _ (_free (pool w)) Hlens3).
  - apply Exists_app. right. by constructor.
  - intros k L Hk HL. subst w3. simpl.
    apply IdPoolFacts.lookup_snoc_inv in Hk as [Hk | [-> _]].
    + by destruct (Hlate _ _ Hk HL).
    + rewrite <- Hlen. split.
      * by rewrite lookup_app_r, Nat.sub_diag.
      * rewrite delete_middle. by rewrite app_nil_r.
Qed.

(** *** BaseGeom.destroy *)

(** X7. [destroy] recycles every id range of the container, first to last:
    the ranges are appended to the free list in that order, each comes
    back with its cursor at [_start], no id that one of them had handed
    out is found any more, and no other entry of the table changes
    hands: what [objectForId] finds afterwards it found before. *)
Theorem recycleAll_releases (idRanges : list ref) : forall w,
  Forall (fun r => (r < length (ranges w))%nat) idRanges ->
  exists w',
    recycleAll idRanges w = Some w' /\
    _free (pool w') = _free (pool w) ++ idRanges /\
    _unusedRangeStart (pool w') = _unusedRangeStart (pool w) /\
    length (ranges w') = length (ranges w) /\
    (forall r rg id,
       r ∈ idRanges -> ranges w !! r = Some rg ->
       _start rg <= id < _next rg -> objectForId id w' = None) /\
    (forall id obj,
       objectForId id w' = Some obj -> objectForId id w = Some obj) /\
    (forall r rg,
       r ∈ idRanges -> ranges w !! r = Some rg ->
       ranges w' !! r = Some (mkRange (_start rg) (_start rg) (_end rg))) /\
    (forall r, r ∉ idRanges -> ranges w' !! r = ranges w !! r).
Proof.
  induction idRanges as [ | r0 rest IH ]; intros w Hstore.
  - exists w. repeat split; try done.
    + by rewrite app_nil_r.
    + intros r rg id Hin. by apply not_elem_of_nil in Hin.
    + intros r rg Hin. by apply not_elem_of_nil in Hin.
  - apply Forall_cons in Hstore as [Hr0 Hstore].
    destruct (lookup_lt_is_Some_2 _ _ Hr0) as [rg0 Hrg0].
    destruct (IdPoolFacts.recycle_clears _ _ _ Hrg0)
      as (w1 & Hrec & Hclear & Hkeep & Hreset & Hfree).
    assert (Hranges1 : ranges w1
              = <[r0 := mkRange (_start rg0) (_start rg0) (_end rg0)]> (ranges w)).
    { rewrite (IdPoolFacts.recycle_Some _ _ _ Hrg0) in Hrec. by simplify_eq. }
    assert (Hhwm1 : _unusedRangeStart (pool w1) = _unusedRangeStart (pool w)).
    { rewrite (IdPoolFacts.recycle_Some _ _ _ Hrg0) in Hrec. by simplify_eq. }
    assert (Hstore1 : Forall (fun r => (r < length (ranges w1))%nat) rest).
    { by rewrite Hranges1, length_insert. }
    destruct (IH w1 Hstore1)
      as (w' & Hall & Hfree' & Hhwm' & Hlen' & Hgone & Hsub & Hback & Hsame).
    assert (Hsub0 : forall id obj,
              objectForId id w1 = Some obj -> objectForId id w = Some obj).
    { intros id obj Hid.
      destruct (decide (_start rg0 <= id < _next rg0)) as [Hin | Hout].
      - by rewrite (Hclear id Hin) in Hid.
      - by rewrite <- (Hkeep id Hout). }
    exists w'. split; [ simpl; by rewrite Hrec | ].
    split; [ by rewrite Hfree', Hfree, <- app_assoc | ].
    split; [ by rewrite Hhwm' | ].
    split; [ by rewrite Hlen', Hranges1, length_insert | ].
    split; [ | split; [ | split ] ].
    + intros r rg id Hin Hr Hid.
      destruct (decide (r = r0)) as [-> | Hne].
      * simplify_eq.
        destruct (objectForId id w') as [obj | ] eqn:Hobj; [ | done ].
        apply Hsub in Hobj. by rewrite (Hclear id Hid) in Hobj.
      * apply elem_of_cons in Hin as [ | Hin ]; [ done | ].
        apply (Hgone r rg id Hin); [ | done ].
        by rewrite Hranges1, list_lookup_insert_ne.
    + intros id obj Hid. by apply Hsub0, Hsub.
    + intros r rg Hin Hr.
      destruct (decide (r = r0)) as [-> | Hne].
      * simplify_eq. destruct (decide (r0 ∈ rest)) as [Hin' | Hout].
        -- by rewrite (Hback _ _ Hin' Hreset).
        -- by rewrite (Hsame _ Hout).
      * apply elem_of_cons in Hin as [ | Hin ]; [ done | ].
        apply (Hback r rg Hin). by rewrite Hranges1, list_lookup_insert_ne.
    + intros r Hout. apply not_elem_of_cons in Hout as [Hne Hout].
      rewrite (Hsame _ Hout), Hranges1. by apply list_lookup_insert_ne.
Qed.

End WithObj.


(** [recycle_twice_shares_range] on the first of the two ranges. *)
Lemma recycle_twice_shares_range_witness :
  exists w1 w2 w3 w4,
    recycle 0%nat exampleNeighbours = Some w1 /\ recycle 0%nat w1 = Some w2 /\
    _free (pool w2) = [] ++ [0%nat; 0%nat] /\
    getContinuousRange 2 w2 = Some (Some 0%nat, w3) /\
    getContinuousRange 2 w3 = Some (Some 0%nat, w4).
Proof.
  apply (recycle_twice_shares_range exampleNeighbours 0%nat
           (mkRange 0 0 2) [] 2 eq_refl eq_refl (Forall_nil_2 _)).
  unfold rangeLength. simpl. lia.
Defined.

(** [recycleAll_releases] for a container holding both ranges. *)
Lemma recycleAll_releases_witness :
  exists w',
    recycleAll [0%nat; 1%nat] exampleNeighbours = Some w' /\
    _free (pool w') = [0%nat; 1%nat] /\
    objectForId 2 w' = None.
Proof.
  destruct (recycleAll_releases [0%nat; 1%nat] exampleNeighbours)
    as (w' & Hall & Hfree & _ & _ & Hgone & _).
  - repeat constructor.
  - exists w'. split; [ exact Hall | ]. split; [ exact Hfree | ].
    apply (Hgone 1%nat (mkRange 2 3 4) 2); [ | reflexivity | simpl; lia ].
    right. left.
Defined.

End IdPoolReuse.

(** ** The partitioner over a whole build *)
Module MeshGeomMore.
Import MeshGeom.

Lemma bounded_apply o g g' : bounded g -> apply o g = Some g' -> bounded g'.
Proof.
  unfold bounded. intros Hb Happ.
  destruct o as [ c nv ni | nv ni | n | i nv ni ]; simpl in Happ.
  - simplify_eq/=. apply Forall_app. split; [ done | ].
    repeat constructor. simpl. unfold _boundedVertArraySize. lia.
  - simplify_eq/=. apply Forall_app. split; [ done | ].
    repeat constructor. simpl. unfold _boundedVertArraySize. lia.
  - unfold vertArrayWithSpaceFor in Happ.
    destruct (last (_indexedVertArrays g)) as [cur | ]; simplify_eq/=.
    destruct (_ >=? _); simplify_eq/=; [ done | ].
    apply Forall_app. split; [ done | ].
    repeat constructor. destruct (vaClass cur); simpl;
      unfold _boundedVertArraySize; lia.
  - simplify_eq/=. by apply Forall_alter.
Qed.

(** X8. Whatever a builder does with a new container (start chains or plain
    arrays, ask for space, fill segments), no segment ever has a vertex
    capacity above 65536, so every vertex index fits 16 bits. *)
Theorem segments_stay_bounded (os : list op) : forall g g',
  bounded g -> applyAll os g = Some g' -> bounded g'.
Proof.
  induction os as [ | o os IH ]; intros g g' Hb Hall; simpl in Hall.
  - by simplify_eq.
  - destruct (apply o g) as [g1 | ] eqn:Happ; simplify_eq/=.
    eapply IH; [ | exact Hall ]. by eapply bounded_apply.
Qed.

(** A chain of 70000 vertices: the first segment is filled and a second
    one is opened. *)
Lemma segments_stay_bounded_witness :
  bounded (mk [mkVA (MeshChainData "A") 65536 65536 210000 196608;
               mkVA (MeshChainData "A") 4464 0 13392 0]
              (Some 4464) (Some 13392)).
Proof.
  apply (segments_stay_bounded
           [AddChainVertArray "A" 70000 210000; SetCounts 0 65536 196608;
            VertArrayWithSpaceFor 3] new).
  - constructor.
  - reflexivity.
Defined.

(** X9. The segment [vertArrayWithSpaceFor] returns is on the container, and
    it has room for the request exactly when the current segment had, or
    when the request is within both 65536 and the budget that is left
    once the current segment's vertices are taken off. A request above
    65536 is therefore never met by a new segment. *)
Theorem vertArrayWithSpaceFor_room vas cur rv ri n :
  exists i g' va,
    vertArrayWithSpaceFor n (mk (vas ++ [cur]) rv ri) = Some (i, g') /\
    vertArray i g' = Some va /\
    last (_indexedVertArrays g') = Some va /\
    (n <= maxVerts va - numVerts va <->
     n <= maxVerts cur - numVerts cur \/
     (n <= 65536 /\ n <= toNumber rv - numVerts cur)).
Proof.
  unfold vertArrayWithSpaceFor, vertArray. simpl. rewrite last_snoc. simpl.
  destruct (Z.geb_spec (maxVerts cur - numVerts cur) n) as [Hroom | Hfull].
  - eexists _, _, cur. split; [ done | ]. simpl.
    rewrite length_app. simpl.
    replace (length vas + 1 - 1)%nat with (length vas) by lia.
    split; [ by rewrite lookup_app_r, Nat.sub_diag | ].
    split; [ apply last_snoc | ]. split; [ auto | done ].
  - eexists _, _, _. split; [ done | ]. simpl.
    split; [ by rewrite lookup_app_r, Nat.sub_diag | ].
    split; [ apply last_snoc | ].
    unfold _boundedVertArraySize. destruct (vaClass cur); simpl; lia.
Qed.

(** *** Budget of a chain *)





End MeshGeomMore.

(** ** Symmetry: transform lookup, central atoms, bounding visits *)
Module SymmetryMore.
Import BaseGeom.

Section Scene.
Context {Transform Vec3 Shader Camera Atom VertArray Axes : Type}.
Variable chain : VertArray -> string.
Variable pos : Atom -> Vec3.
Variable transformMat4 : Vec3 -> Transform -> Vec3.

Abbreviation Geom := (@BaseGeom.t Transform Atom VertArray).
Abbreviation Event :=
  (@BaseGeom.event Transform Vec3 Shader Camera Atom VertArray).
Abbreviation Callback :=
  (BaseGeom.Callback (Transform:=Transform) (Shader:=Shader) (Camera:=Camera)
     (VertArray:=VertArray)).
Abbreviation eachCentralAtomSym :=
  (BaseGeom.eachCentralAtomSym (Shader:=Shader) (Camera:=Camera)
     (VertArray:=VertArray) pos transformMat4).
Abbreviation eachCentralAtomAsym :=
  (BaseGeom.eachCentralAtomAsym (Transform:=Transform) (Shader:=Shader)
     (Camera:=Camera) (VertArray:=VertArray) pos).
Abbreviation draw := (BaseGeom.draw (Vec3:=Vec3) (Atom:=Atom) chain).
Abbreviation symmetryDraws :=
  (BaseGeom.symmetryDraws (Transform:=Transform) (Vec3:=Vec3)
     (Shader:=Shader) (Camera:=Camera) (Atom:=Atom) (VertArray:=VertArray)).
Implicit Types (go : Geom) (gens : list (@Generator Transform)).

(** *** symWithIndex *)

Lemma symWithIndexFrom_lookup gens : forall index,
  0 <= index ->
  symWithIndexFrom gens index = flat_map matrices gens !! Z.to_nat index.
Proof.
  induction gens as [ | gen gens IH ]; intros index Hpos; simpl; [ done | ].
  destruct (Z.gtb_spec (Z.of_nat (length (matrices gen))) index) as [Hin | Hout].
  - unfold matrix. destruct (Z.ltb_spec index 0); [ lia | ].
    rewrite lookup_app_l by lia. done.
  - rewrite IH by lia. rewrite lookup_app_r by lia. f_equal. lia.
Qed.

Lemma symWithIndexFrom_negative gens index :
  index < 0 -> symWithIndexFrom gens index = None.
Proof.
  intros Hneg. destruct gens as [ | gen gens ]; simpl; [ done | ].
  destruct (Z.gtb_spec (Z.of_nat (length (matrices gen))) index); [ | lia ].
  unfold matrix. by destruct (Z.ltb_spec index 0); [ | lia ].
Qed.

(** X11. [symWithIndex] numbers the transforms of the assembly through all its
    generators, in order: for an index from 0 it is the transform at
    that place in the generators' transform lists put end to end, and
    nothing past the last one; a negative index, ['asym'] or a missing
    assembly give nothing. *)
Theorem symWithIndex_numbers_transforms go index :
  (forall a,
     isAsym (showRelated go) = false ->
     assembly (structure go) (showRelated go) = Some a ->
     0 <= index ->
     symWithIndex go index
     = flat_map matrices (generators a) !! Z.to_nat index) /\
  (index < 0 -> symWithIndex go index = None) /\
  (isAsym (showRelated go) = true \/
   assembly (structure go) (showRelated go) = None ->
   symWithIndex go index = None).
Proof.
  unfold symWithIndex. split; [ | split ].
  - intros a -> -> Hpos. by apply symWithIndexFrom_lookup.
  - intros Hneg. destruct (isAsym _); [ done | ].
    destruct (assembly _ _); [ | done ]. by apply symWithIndexFrom_negative.
  - intros [-> | ->]; [ done | ]. by destruct (isAsym _).
Qed.

(** *** Central atoms under symmetry *)

Lemma flat_map_central (f : Atom -> Event) (ress : list (@Residue Atom)) :
  flat_map (fun residue =>
              match centralAtom residue with
              | None => []
              | Some a => [f a]
              end) ress
  = map f (omap centralAtom ress).
Proof.
  induction ress as [ | res ress IH ]; simpl; [ done | ].
  rewrite IH. by destruct (centralAtom res).
Qed.

Lemma flat_map_chains (f : Atom -> Event) (chs : list (@Chain Atom)) :
  flat_map (fun ch =>
              flat_map (fun residue =>
                          match centralAtom residue with
                          | None => []
                          | Some a => [f a]
                          end) (residues ch)) chs
  = map f (centralAtoms chs).
Proof.
  unfold centralAtoms.
  induction chs as [ | ch chs IH ]; simpl; [ done | ].
  by rewrite IH, flat_map_central, map_app.
Qed.

Lemma length_flat_map_const {A B} (f : A -> list B) (n : nat) (xs : list A) :
  (forall x, length (f x) = n) -> length (flat_map f xs) = (length xs * n)%nat.
Proof.
  intros Hf. induction xs as [ | x xs IH ]; simpl; [ done | ].
  by rewrite length_app, Hf, IH.
Qed.

(** X12. With an assembly, the callback is called once for every generator,
    transform of the generator and central atom of the generator's
    chains, in that nesting, with the atom itself and its position under
    the transform; residues without a central atom are passed over. The
    calls number, over the generators, transforms times central atoms.
    Without an assembly the callback gets every central atom of the
    structure once, at its own position. *)
Theorem eachCentralAtom_callbacks (s : @Structure Transform Atom) gens :
  eachCentralAtomSym s gens
  = flat_map (fun gen =>
      flat_map (fun m =>
                  map (fun a => Callback a (transformMat4 (pos a) m))
                      (centralAtoms (chainsByName s (chains gen))))
               (matrices gen))
      gens /\
  length (eachCentralAtomSym s gens)
  = sum_list (map (fun gen =>
                     length (matrices gen)
                     * length (centralAtoms (chainsByName s (chains gen))))%nat
                  gens) /\
  eachCentralAtomAsym s
  = map (fun a => Callback a (pos a)) (omap centralAtom (allResidues s)).
Proof.
  assert (Hsym : eachCentralAtomSym s gens
    = flat_map (fun gen =>
        flat_map (fun m =>
                    map (fun a => Callback a (transformMat4 (pos a) m))
                        (centralAtoms (chainsByName s (chains gen))))
                 (matrices gen))
        gens).
  { unfold BaseGeom.eachCentralAtomSym.
    induction gens as [ | gen gens IH ]; simpl; [ done | ].
    rewrite IH. f_equal.
    induction (matrices gen) as [ | m ms IHm ]; simpl; [ done | ].
    rewrite IHm. f_equal.
    apply (flat_map_chains (fun a => Callback a (transformMat4 (pos a) m))). }
  split; [ exact Hsym | ]. split.
  - rewrite Hsym. clear Hsym.
    induction gens as [ | gen gens IH ]; simpl; [ done | ].
    rewrite length_app, IH. f_equal.
    apply length_flat_map_const. intros m. apply length_map.
  - unfold BaseGeom.eachCentralAtomAsym.
    apply (flat_map_central (fun a => Callback a (pos a))).
Qed.

(** *** What the projection intervals visit *)

Lemma foldl_logVisit (axes : Axes) (t : Transform) (vas : list VertArray)
    (init : list (VertArray * option Transform)) :
  foldl (fun acc va => logVisit va axes acc (Some t)) init vas
  = init ++ map (fun va => (va, Some t)) vas.
Proof.
  revert init. induction vas as [ | va vas IH ]; intros init; simpl.
  - by rewrite app_nil_r.
  - rewrite IH. unfold logVisit. by rewrite <- app_assoc.
Qed.

Lemma symLoop_logVisit go (axes : Axes) gens :
  forall init : list (VertArray * option Transform),
  symLoop chain go gens
    (fun acc va transform => logVisit va axes acc (Some transform)) init
  = init ++
    flat_map (fun gen =>
      flat_map (fun t =>
                  map (fun va => (va, Some t))
                      (_vertArraysInvolving chain go (chains gen)))
               (matrices gen))
      gens.
Proof.
  unfold symLoop.
  induction gens as [ | gen gens IH ]; intros init; simpl.
  - by rewrite app_nil_r.
  - rewrite IH. rewrite (assoc_L (++)). f_equal.
    generalize (_vertArraysInvolving chain go (chains gen)).
    intros vas. revert init.
    induction (matrices gen) as [ | t ts IHt ]; intros init; simpl.
    + by rewrite app_nil_r.
    + rewrite IHt, foldl_logVisit. by rewrite <- app_assoc.
Qed.

Lemma flat_map_cons_perm {A B} (h : A -> B) (k : A -> list B) (xs : list A) :
  flat_map (fun x => h x :: k x) xs ≡ₚ map h xs ++ flat_map k xs.
Proof.
  induction xs as [ | x xs IH ]; simpl; [ done | ].
  apply Permutation_cons; [ done | ]. rewrite IH.
  apply Permutation_app_swap_app.
Qed.

Lemma flat_map_swap_perm {A B C} (g : A -> B -> C) (xs : list A) (ys : list B) :
  flat_map (fun y => map (fun x => g x y) xs) ys
  ≡ₚ flat_map (fun x => map (g x) ys) xs.
Proof.
  induction ys as [ | y ys IH ]; simpl.
  - induction xs as [ | x xs IHx ]; simpl; done.
  - rewrite IH. symmetry. apply (flat_map_cons_perm (fun x => g x y)).
Qed.

(** X13. Bounding by projection goes over the same copies as drawing: on the
    generator path, the calls [updateProjectionIntervals] makes on the
    vertex arrays, each with its transform, are the (segment, transform)
    draws of [draw] in another order (transforms outside segments
    instead of segments outside transforms), and the call logs nothing. *)
Theorem projection_visits_drawn_copies go cam
    (shaderCatalog : @ShaderCatalog Shader) style pass shader a (axes : Axes) :
  _visible go = true ->
  shaderForStyleAndPass (class go) shaderCatalog style pass = Some shader ->
  isAsym (showRelated go) = false ->
  assembly (structure go) (showRelated go) = Some a ->
  (BaseGeom.updateProjectionIntervals (Vec3:=Vec3) (Shader:=Shader)
     (Camera:=Camera) chain logVisit go axes []).1
  ≡ₚ map (fun p => (p.1, Some p.2))
         (flat_map symmetryDraws (draw go cam shaderCatalog style pass)) /\
  (BaseGeom.updateProjectionIntervals (Vec3:=Vec3) (Shader:=Shader)
     (Camera:=Camera) chain logVisit go axes []).2 = [].
Proof.
  intros Hvis Hshader Hasym Ha.
  rewrite (BaseGeomFacts.draw_sym _ _ _ _ _ _ _ _ Hvis Hshader Hasym Ha).
  unfold BaseGeom.updateProjectionIntervals. rewrite Hvis, Hasym, Ha. simpl.
  split; [ | done ].
  rewrite symLoop_logVisit. simpl.
  unfold BaseGeom._drawSymmetryRelated.
  induction (generators a) as [ | gen gens IH ]; simpl; [ done | ].
  rewrite flat_map_app, map_app, BaseGeomFacts.symmetryDraws_sym, IH.
  apply Permutation_app_tail.
  rewrite (flat_map_swap_perm (fun va t => (va, Some t))).
  generalize (_vertArraysInvolving chain go (chains gen)).
  intros vas. induction vas as [ | va vas IHv ]; simpl; [ done | ].
  rewrite map_app, map_map, IHv. done.
Qed.

End Scene.

(** [symWithIndex_numbers_transforms]: index 0 of assembly ["1"]. *)
Lemma symWithIndex_numbers_transforms_witness :
  symWithIndex (Demo.geom MeshGeom (Some "1"%string)) 0
  = flat_map matrices (generators Demo.assembly1) !! Z.to_nat 0.
Proof.
  apply (proj1 (symWithIndex_numbers_transforms
                  (Demo.geom MeshGeom (Some "1"%string)) 0)
               Demo.assembly1 eq_refl eq_refl).
  lia.
Defined.

(** [projection_visits_drawn_copies] on the mesh container with assembly
    ["1"]: the one visit is chain [A] under the translation. *)
Lemma projection_visits_drawn_copies_witness :
  (BaseGeom.updateProjectionIntervals (Vec3:=Demo.Vec3) (Shader:=string)
     (Camera:=unit) Demo.chain logVisit
     (Demo.geom MeshGeom (Some "1"%string)) tt []).1
  ≡ₚ [(Demo.vaA, Some (10, 0, 0))].
Proof.
  exact (proj1 (projection_visits_drawn_copies (Vec3:=Demo.Vec3) Demo.chain
                  (Demo.geom MeshGeom (Some "1"%string)) tt Demo.catalog
                  "cartoon" "normal" "cartoon"%string Demo.assembly1 tt
                  eq_refl eq_refl eq_refl eq_refl)).
Defined.

End SymmetryMore.

(** ** smallestPowerOfTwo *)
Module TextLabelFacts.
Import Floats.PrimFloat Floats.SpecFloat Floats.FloatOps.
Import TextLabel FloatOrder.

Lemma doubled_succ k s : doubled (S k) s = doubled k (s * 2)%float.
Proof. apply Nat.iter_succ_r. Qed.

(** [1] doubled [k] times is the double [2 ^ 52 * 2 ^ (k - 52)]. *)
Definition isPowerOfTwo (k : nat) (s : float) : bool :=
  match Prim2SF s with
  | S754_finite false m e =>
      Pos.eqb m 4503599627370496 && Z.eqb e (Z.of_nat k - 52)
  | _ => false
  end.

Lemma isPowerOfTwo_spec k s :
  isPowerOfTwo k s = true ->
  Prim2SF s = S754_finite false 4503599627370496 (Z.of_nat k - 52).
Proof.
  unfold isPowerOfTwo. destruct (Prim2SF s) as [ | | | [] m e ]; try done.
  intros [->%Pos.eqb_eq ->%Z.eqb_eq]%andb_true_iff. done.
Qed.

Lemma doubled_powers :
  forallb (fun k => isPowerOfTwo k (doubled k 1)) (seq 0 1024) = true.
Proof. vm_compute. reflexivity. Qed.

Lemma doubled_1024 : doubled 1024 1 = infinity.
Proof. vm_compute. reflexivity. Qed.

(** The loop from [s], when some doubling of [s] within the fuel is not
    below the size: it stops at the first such doubling. *)
Lemma loop_first (size : float) (fuel : nat) : forall (s : float) (i : nat),
  (i < fuel)%nat -> (doubled i s <? size)%float = false ->
  exists k : nat,
    (k <= i)%nat /\
    loop fuel s size = Some (doubled k s) /\
    (doubled k s <? size)%float = false /\
    forall j : nat, (j < k)%nat -> (doubled j s <? size)%float = true.
Proof.
  induction fuel as [ | fuel IH ]; intros s i Hi Hstop; [ lia | ].
  simpl. destruct (s <? size)%float eqn:Hs.
  - destruct i as [ | i ]; [ simpl in Hstop; congruence | ].
    rewrite doubled_succ in Hstop.
    destruct (IH (s * 2)%float i ltac:(lia) Hstop)
      as (k & Hk & Hrun & Hge & Hlt).
    exists (S k). rewrite !doubled_succ. split; [ lia | ].
    split; [ done | ]. split; [ done | ].
    intros [ | j ] Hj; [ done | ]. rewrite doubled_succ. apply Hlt. lia.
  - exists 0%nat. split; [ lia | ]. split; [ done | ]. split; [ done | ].
    intros j Hj. lia.
Qed.

(** X14. [smallestPowerOfTwo] returns for every double [size], NaN and the
    infinities included: the loop stops after at most 1024 doublings of
    1, at the first value that is not below [size]. These values are the
    powers of two [2 ^ k] up to [k = 1023], and the 1024th doubling
    overflows to [Infinity]: that is the result for a size above
    [2 ^ 1023]. *)
Theorem smallestPowerOfTwo_least :
  (forall size : float, exists k : nat,
     (k <= 1024)%nat /\
     smallestPowerOfTwo size = Some (doubled k 1) /\
     (doubled k 1 <? size)%float = false /\
     forall j : nat, (j < k)%nat -> (doubled j 1 <? size)%float = true) /\
  (forall k : nat, (k < 1024)%nat ->
     Prim2SF (doubled k 1)
     = S754_finite false 4503599627370496 (Z.of_nat k - 52)) /\
  doubled 1024 1 = infinity.
Proof.
  split; [ | split; [ | exact doubled_1024 ] ].
  - intros size. apply (loop_first size 1025 1%float 1024); [ lia | ].
    rewrite doubled_1024. apply infinity_not_below.
  - intros k Hk. apply isPowerOfTwo_spec.
    pose proof doubled_powers as H. rewrite forallb_forall in H.
    apply H, in_seq. lia.
Qed.

Example smallestPowerOfTwo_24 :
  smallestPowerOfTwo 24 = Some 32%float /\
  smallestPowerOfTwo 128.5 = Some 256%float /\
  smallestPowerOfTwo 0 = Some 1%float /\
  smallestPowerOfTwo nan = Some 1%float /\
  smallestPowerOfTwo infinity = Some infinity.
Proof. repeat split. Qed.

End TextLabelFacts.
